(** * MNIST workload (PyTorch): a shallow embedding and its properties

    Source: [algorithmic_efficiency/workloads/mnist/mnist_pytorch/workload.py].

    Conventions of the embedding.
    - A tensor is its shape together with its elements in row-major
      (contiguous) order.
    - The elements of floating tensors are exact rationals ([Qc]): every
      finite float is a rational, and the rounding of [+], [*] and [/] is
      left out.  The one place where the source can leave the finite
      numbers, the final division of [loss_fn], returns a [fscalar], which
      has the non-finite results of a division by zero.
    - Python exceptions are the [Err] results of a small error monad.
    - What comes from outside this file ([pytorch_setup], the base workload's
      iterator, [F.cross_entropy], [nn.Sigmoid]) is a parameter. *)

From Stdlib Require Import QArith Qcanon.
From stdpp Require Import base tactics option list numbers strings.

Local Open Scope Qc_scope.

(** ** Exceptions and results *)

Inductive error : Set :=
  | ZeroDivisionError   (* Python: division by the integer zero *)
  | OverflowError       (* Python: an integer quotient too large for a float *)
  | IndexError          (* index out of range, or indexing a 0-d tensor *)
  | RuntimeError        (* torch: shapes that do not fit an operation;
                           Python: StopIteration raised inside a generator *)
  | CollectiveStalled.  (* a broadcast whose source never sends *)

Inductive result (A : Type) : Type :=
  | Ok (a : A)
  | Err (e : error).
Arguments Ok {A} a.
Arguments Err {A} e.

Global Instance result_ret : MRet result := λ A a, Ok a.
Global Instance result_bind : MBind result := λ A B f r,
  match r with
  | Ok a => f a
  | Err e => Err e
  end.
Global Instance result_fmap : FMap result := λ A B f r,
  match r with
  | Ok a => Ok (f a)
  | Err e => Err e
  end.

(** ** Tensors *)

Record tensor (A : Type) : Type := Tensor {
  shape : list nat;
  data : list A
}.
Arguments Tensor {A} shape data.
Arguments shape {A} t.
Arguments data {A} t.

(** Number of elements that a shape announces. *)
Definition numel (s : list nat) : nat := foldr Nat.mul 1%nat s.

(** A tensor is well formed when it holds as many elements as its shape says. *)
Definition wf {A} (t : tensor A) : Prop := length (data t) = numel (shape t).

(** Element-wise conversion, as [torch.as_tensor(x, dtype=...)] does. *)
Definition tmap {A B} (f : A → B) (t : tensor A) : tensor B :=
  Tensor (shape t) (f <$> data t).

(** [t[i]]: the [i]-th slice along the first axis. *)
Definition index0 {A} (t : tensor A) (i : nat) : result (tensor A) :=
  match shape t with
  | [] => Err IndexError
  | d :: rest =>
      if decide (i < d)%nat
      then Ok (Tensor rest (take (numel rest) (drop (i * numel rest) (data t))))
      else Err IndexError
  end.

(** [t.view(-1, *t.shape[2:])]: the first two axes become one.  The size of
    the new first axis is inferred from the number of elements; torch refuses
    when it cannot be. *)
Definition view_flat2 {A} (t : tensor A) : result (tensor A) :=
  let rest := drop 2 (shape t) in
  let n := numel (shape t) in
  if decide (numel rest = 0)%nat then Err RuntimeError
  else if decide (n `mod` numel rest = 0)%nat
       then Ok (Tensor ((n `div` numel rest)%nat :: rest) (data t))
       else Err RuntimeError.

(** The [n] consecutive chunks of [k] elements of a list. *)
Definition chunks {A} (k n : nat) (l : list A) : list (list A) :=
  (λ i, take k (drop (i * k) l)) <$> seq 0 n.

(** One example of [hw] positions and [c] channels, from channel-last
    ([ex[p*c + ci]]) to channel-first order. *)
Definition channel_first {A} (hw c : nat) (ex : list A) : list A :=
  ci ← seq 0 c; omap (λ p, ex !! (p * c + ci)%nat) (seq 0 hw).

(** [t.permute(0, 3, 1, 2)] of a 4-d tensor: [B,H,W,C] becomes [B,C,H,W],
    with [new[b,c,h,w] = old[b,h,w,c]]. *)
Definition permute_0312 {A} (t : tensor A) : result (tensor A) :=
  match shape t with
  | [b; h; w; c] =>
      Ok (Tensor [b; c; h; w]
            (chunks (h * w * c) b (data t) ≫= channel_first (h * w) c))
  | _ => Err RuntimeError
  end.

(** ** The model *)

(** The sub-modules that [_Model] uses. *)
Inductive module : Type :=
  | Linear (weight : list (list Qc)) (bias : option (list Qc))
  | Sigmoid.

(** [nn.Sequential(OrderedDict(...))]: the named sub-modules, in order. *)
Definition Sequential : Type := list (string * module).

Record _Model : Type := Model {
  net : Sequential;
  training : bool
}.

(** [_Model.__init__]: 784 -> 128 -> 10, the weights being those given
    (the source draws them at random); a new module is in training mode. *)
Definition Model_init (w1 : list (list Qc)) (b1 : list Qc)
    (w2 : list (list Qc)) (b2 : list Qc) : _Model :=
  Model [("layer1", Linear w1 (Some b1));
         ("layer1_sig", Sigmoid);
         ("layer2", Linear w2 (Some b2))]
        true.

(** The parameter names of one named sub-module, as
    [nn.Module.named_parameters] spells them under the prefix of [self.net]. *)
Definition module_param_names (entry : string * module) : list string :=
  match entry.2 with
  | Linear _ b =>
      ("net." +:+ entry.1 +:+ ".weight") ::
      match b with
      | Some _ => ["net." +:+ entry.1 +:+ ".bias"]
      | None => []
      end
  | Sigmoid => []
  end.

Definition named_parameters (m : _Model) : list string :=
  net m ≫= module_param_names.

Definition is_Linear (entry : string * module) : bool :=
  match entry.2 with Linear _ _ => true | Sigmoid => false end.

(** The parameter names of the last linear layer of the network. *)
Definition final_linear_param_names (m : _Model) : list string :=
  from_option module_param_names [] (last (filter is_Linear (net m))).

(** [MnistWorkload.is_output_params] *)
Definition is_output_params (param_key : string) : bool :=
  bool_decide (param_key ∈ ["net.layer2.weight"; "net_layer2.bias"]).

(** ** What torch provides *)

(** Results of a true division of scalars: a rational, an infinity with its
    sign, or not-a-number. *)
Inductive fscalar : Type :=
  | Finite (q : Qc)
  | Infinite (negative : bool)
  | NaN.

(** [x / y] on floating scalars with finite operands: no exception is raised
    for a zero divisor; [0/0] is not-a-number and [x/0] is an infinity that
    has the sign of [x]. *)
Definition true_divide (x y : Qc) : fscalar :=
  if decide (y = 0) then
    if decide (x = 0) then NaN else Infinite (bool_decide (x < 0))
  else Finite (x / y).

(** [t.sum()] *)
Definition tsum (l : list Qc) : Qc := foldr Qcplus 0 l.

(** A Python [int] or a [bool] element read as a floating scalar, as the type
    promotion of torch does. *)
Definition of_nat (n : nat) : Qc := Qc_of_Z (Z.of_nat n).
Definition of_bool (b : bool) : Qc := if b then 1 else 0.

(** [torch.ones(n)] *)
Definition ones (n : nat) : list Qc := replicate n 1.

(** An element-wise binary operation on 1-d tensors: equal lengths pair up,
    a tensor of one element is broadcast, anything else is refused. *)
Definition broadcast_with {A B C} (f : A → B → C)
    (xs : list A) (ys : list B) : result (list C) :=
  if decide (length xs = length ys) then Ok (zip_with f xs ys)
  else match xs, ys with
       | [x], _ => Ok (f x <$> ys)
       | _, [y] => Ok ((λ x, f x y) <$> xs)
       | _, _ => Err RuntimeError
       end.

(** [xs *= ms] on 1-d tensors: the result has to fit in [xs], so only [ms]
    may be broadcast. *)
Definition imul (xs ms : list Qc) : result (list Qc) :=
  if decide (length ms = length xs) then Ok (zip_with Qcmult xs ms)
  else match ms with
       | [m] => Ok ((λ x, x * m) <$> xs)
       | _ => Err RuntimeError
       end.

(** Index of the first greatest element: [best] at [best_i] is the greatest
    so far, [i] is the index of the head of [row]. *)
Fixpoint argmax_from (best_i : nat) (best : Qc) (i : nat) (row : list Qc) : nat :=
  match row with
  | [] => best_i
  | x :: r =>
      if decide (best < x) then argmax_from i x (S i) r
      else argmax_from best_i best (S i) r
  end.

Definition argmax (row : list Qc) : result nat :=
  match row with
  | [] => Err IndexError
  | x :: r => Ok (argmax_from 0 x 1 r)
  end.

(** The indices of [torch.max(logits, 1)]. *)
Definition max_dim1 (logits : list (list Qc)) : result (list nat) :=
  mapM argmax logits.

(** [i] is the index of the first greatest element of [row]. *)
Definition is_argmax (row : list Qc) (i : nat) : Prop :=
  ∃ v, row !! i = Some v ∧
       (∀ j w, row !! j = Some w → w ≤ v) ∧
       (∀ j w, (j < i)%nat → row !! j = Some w → w < v).

(** The two functions of torch whose values are not rational functions of
    their arguments.  [cross_entropy logits labels label_smoothing] is
    [F.cross_entropy] with [reduction='none']: one loss per example, for the
    arguments on which the library call returns (the exceptions it raises,
    such as a label out of range, are left out). *)
Class TorchOps : Type := {
  sigmoid : Qc → Qc;
  cross_entropy : list (list Qc) → list Z → Qc → list Qc;
  cross_entropy_length logits labels label_smoothing :
    length (cross_entropy logits labels label_smoothing) = length logits
}.

Section workload.
Context {ops : TorchOps}.

(** ** Forward pass *)

(** [x.view(x.size()[0], -1)]: the rows of a tensor, one per example. *)
Definition view_rows (x : tensor Qc) : result (list (list Qc)) :=
  match shape x with
  | [] => Err IndexError
  | b :: rest =>
      if decide (b = 0)%nat then Err RuntimeError
      else Ok (chunks (numel rest) b (data x))
  end.

Definition dot (w x : list Qc) : Qc := tsum (zip_with Qcmult w x).

(** One example through [nn.Linear]: [W x + b], with [W] out-by-in. *)
Definition linear_row (W : list (list Qc)) (b : option (list Qc))
    (x : list Qc) : list Qc :=
  match b with
  | Some b => zip_with (λ w bi, dot w x + bi) W b
  | None => (λ w, dot w x) <$> W
  end.

Definition apply_module (m : module) (xs : list (list Qc))
    : result (list (list Qc)) :=
  match m with
  | Linear W b =>
      if decide (Forall (λ x, Forall (λ w, length w = length x) W) xs)
      then Ok (linear_row W b <$> xs)
      else Err RuntimeError
  | Sigmoid => Ok ((λ x : list Qc, sigmoid <$> x) <$> xs)
  end.

(** [nn.Sequential.forward]: the sub-modules, one after the other. *)
Fixpoint apply_sequential (s : Sequential) (xs : list (list Qc))
    : result (list (list Qc)) :=
  match s with
  | [] => Ok xs
  | (_, m) :: s' => apply_module m xs ≫= apply_sequential s'
  end.

(** [_Model.forward] *)
Definition forward (m : _Model) (x : tensor Qc) : result (list (list Qc)) :=
  view_rows x ≫= apply_sequential (net m).

(** ** [model_fn] *)

Inductive ForwardPassMode : Set := TRAIN | EVAL.

Global Instance ForwardPassMode_eq_dec : EqDecision ForwardPassMode.
Proof. solve_decision. Defined.

Record Batch : Type := mkBatch {
  inputs : tensor Qc;
  targets : tensor Z;
  weights : option (tensor bool)
}.

(** [nn.Module.eval]: the module leaves training mode. *)
Definition eval (m : _Model) : _Model := Model (net m) false.

(** What a forward pass hands back: the scores, and whether autograd tracks
    them. *)
Record scores : Type := mkScores {
  logits_batch : list (list Qc);
  requires_grad : bool
}.

(** [MnistWorkload.model_fn]; [model_state], [rng] and [update_batch_norm]
    are deleted on entry and are left out.  The module is a mutable object:
    the first component is its state after the call.  [grad_enabled] is the autograd
    mode of the caller, which [contextlib.nullcontext] leaves as it is and
    [torch.no_grad] switches off. *)
Definition model_fn (params : _Model) (batch : Batch) (mode : ForwardPassMode)
    (grad_enabled : bool) : _Model * result scores :=
  let model := if decide (mode = EVAL) then eval params else params in
  let tracking := match mode with EVAL => false | TRAIN => grad_enabled end in
  (model, (λ l, mkScores l tracking) <$> forward model (inputs batch)).

(** ** [loss_fn] *)

(** The number that divides the summed loss. *)
Definition n_valid_examples (mask_batch : option (list Qc))
    (per_example_losses : list Qc) : Qc :=
  match mask_batch with
  | Some mask => tsum mask
  | None => of_nat (length per_example_losses)
  end.

(** [MnistWorkload.loss_fn]: the scalar loss and the per-example losses. *)
Definition loss_fn (label_batch : list Z) (logits : list (list Qc))
    (mask_batch : option (list Qc)) (label_smoothing : Qc)
    : result (fscalar * list Qc) :=
  let per_example_losses := cross_entropy logits label_batch label_smoothing in
  per_example_losses' ←
    match mask_batch with
    | Some mask => imul per_example_losses mask
    | None => Ok per_example_losses
    end;
  let n_valid := n_valid_examples mask_batch per_example_losses in
  let summed_loss := tsum per_example_losses' in
  Ok (true_divide summed_loss n_valid, per_example_losses').

(** ** [_eval_model] *)

Record eval_metrics : Type := mkMetrics {
  accuracy : Qc;
  loss : Qc
}.

(** The mask that [_eval_model] uses: the weights of the batch, or ones. *)
Definition eval_weights (batch : Batch) (n : nat) : list Qc :=
  match weights batch with
  | Some w => of_bool <$> data w
  | None => ones n
  end.

(** [MnistWorkload._eval_model]; [targets] and [weights] are 1-d. *)
Definition _eval_model (params : _Model) (batch : Batch)
    : _Model * result eval_metrics :=
  let '(params', out) := model_fn params batch EVAL true in
  (params',
   out ← out;
   let logits := logits_batch out in
   let weights := eval_weights batch (length logits) in
   predicted ← max_dim1 logits;
   correct ← broadcast_with (λ p t, bool_decide (Z.of_nat p = t))
               predicted (data (targets batch));
   weighted ← broadcast_with (λ c w, of_bool c * w) correct weights;
   let accuracy := tsum weighted in
   '(_, per_example_losses) ←
      loss_fn (data (targets batch)) logits (Some weights) 0;
   let loss := tsum per_example_losses in
   Ok (mkMetrics accuracy loss)).

(** The module after a series of calls of [model_fn], each with its batch
    and its mode. *)
Definition model_after (params : _Model)
    (calls : list (Batch * ForwardPassMode)) : _Model :=
  foldl (λ m call, (model_fn m call.1 call.2 true).1) params calls.

(** What [loss_fn] is said to compute, written from its description: the
    per-example losses times the mask (ones when there is none), and their
    sum over the number of valid examples (the sum of the mask, or the size
    of the batch when there is none). *)
Definition masked_losses_spec (ce : list Qc) (mask : option (list Qc))
    : list Qc :=
  zip_with Qcmult ce (default (ones (length ce)) mask).

Definition mean_loss_spec (ce : list Qc) (mask : option (list Qc)) : fscalar :=
  true_divide (tsum (masked_losses_spec ce mask))
    (from_option tsum (of_nat (length ce)) mask).

End workload.

(** ** The input queue *)

(** The values of [pytorch_setup()] in one process. *)
Record topology : Set := mkTopology {
  USE_PYTORCH_DDP : bool;
  RANK : nat;
  N_GPUS : nat
}.

(** A batch of the base workload's iterator, of shape
    [[N_GPUS, per_device_batch_size, ...]].  Its arrays are taken to hold
    values of the types they are converted to: float32 inputs and int64
    targets, which [torch.as_tensor] keeps; the weights are numbers. *)
Record np_batch : Type := mkNpBatch {
  np_inputs : tensor Qc;
  np_targets : tensor Z;
  np_weights : tensor Qc
}.

(** [int(global_batch_size / N_GPUS)] on the sizes that a batch can have:
    Python's true division, then the truncation towards zero of [int].  The
    division goes through a float ([int_true_divide] below); for sizes below
    [2^53] the result is the truncated exact quotient written here
    ([int_true_divide_exact]). *)
Definition per_device_batch_size (global_batch_size : Z) (n_gpus : nat)
    : result Z :=
  if decide (n_gpus = 0)%nat then Err ZeroDivisionError
  else Ok (global_batch_size ÷ Z.of_nat n_gpus)%Z.

(** Python's [a / b] on integers is the binary64 float nearest to the exact
    quotient (ties to even).  For [a, b > 0]: the integer [k] with
    [2^k <= a/b < 2^(k+1)]. *)
Definition floor_log2_ratio (a b : Z) : Z :=
  let d := (Z.log2 a - Z.log2 b)%Z in
  if (b * 2 ^ Z.max d 0 <=? a * 2 ^ Z.max (- d) 0)%Z then d else (d - 1)%Z.

(** The integer nearest to [n / d], ties to the even one. *)
Definition round_half_even (n d : Z) : Z :=
  let q := (n `div` d)%Z in
  let r := (n `mod` d)%Z in
  if (2 * r <? d)%Z then q
  else if (d <? 2 * r)%Z then (q + 1)%Z
  else if Z.even q then q else (q + 1)%Z.

(** The float nearest to [a / b], as [m * 2^e] with a significand of 53 bits
    (fewer below the normal range). *)
Definition binary64_of_ratio (a b : Z) : Z * Z :=
  let e := Z.max (floor_log2_ratio a b - 52) (-1074) in
  (round_half_even (a * 2 ^ Z.max (- e) 0) (b * 2 ^ Z.max e 0), e).

(** [int(a / b)] on Python integers, as the code computes it. *)
Definition int_true_divide (a b : Z) : result Z :=
  if decide (b = 0)%Z then Err ZeroDivisionError
  else if decide (a = 0)%Z then Ok 0%Z
  else
    let '(m, e) := binary64_of_ratio (Z.abs a) (Z.abs b) in
    if (2 ^ (1024 - e) <=? m)%Z then Err OverflowError
    else Ok (Z.sgn a * Z.sgn b *
             (if (0 <=? e)%Z then m * 2 ^ e else m `div` 2 ^ (- e)))%Z.

(** Conversion to [torch.bool]: what is not zero is true. *)
Definition to_bool (x : Qc) : bool := bool_decide (x ≠ 0).

(** [torch.empty(dims)], of which only the shape matters: a size below zero
    is refused. *)
Definition empty_shape (dims : list Z) : result (list nat) :=
  if decide (Forall (λ d, 0 ≤ d)%Z dims) then Ok (Z.to_nat <$> dims)
  else Err RuntimeError.

(** [dist.broadcast(buf, src=0)] in a process that is not the source: the
    buffer keeps its shape and receives the elements that the source sent.
    What a buffer of another size receives depends on the communication
    backend; it is taken here as a failure of the process group, and the
    theorems on the queue are about buffers of the size that was sent. *)
Definition broadcast_recv {A} (buf : list nat) (sent : tensor A)
    : result (tensor A) :=
  if decide (numel buf = length (data sent)) then Ok (Tensor buf (data sent))
  else Err RuntimeError.

(** What a process other than the source does with one tensor: allocate,
    receive, take the slice of its rank. *)
Definition receive_slice {A} (t : topology) (dims : list Z) (sent : tensor A)
    : result (tensor A) :=
  buf ← empty_shape dims;
  received ← broadcast_recv buf sent;
  index0 received (RANK t).

(** One turn of the loop of [_build_input_queue] in the process [t].  [pulled]
    is the batch that rank 0 takes from its iterator in this turn: rank 0
    reads it, the other ranks get its tensors through the broadcasts.  Without
    a process group ([USE_PYTORCH_DDP] false) a broadcast fails. *)
Definition queue_step (t : topology) (per_device : Z) (pulled : np_batch)
    : result Batch :=
  let sent_inputs := tmap id (np_inputs pulled) in
  let sent_targets := tmap id (np_targets pulled) in
  let sent_weights := tmap to_bool (np_weights pulled) in
  '(inputs, targets, weights) ←
    (if decide (RANK t = 0)%nat then
       if USE_PYTORCH_DDP t then
         inputs ← index0 sent_inputs 0;
         targets ← index0 sent_targets 0;
         weights ← index0 sent_weights 0;
         Ok (inputs, targets, weights)
       else
         inputs ← view_flat2 sent_inputs;
         targets ← view_flat2 sent_targets;
         weights ← view_flat2 sent_weights;
         Ok (inputs, targets, weights)
     else
       if USE_PYTORCH_DDP t then
         let n := Z.of_nat (N_GPUS t) in
         inputs ← receive_slice t [n; per_device; 28; 28; 1]%Z sent_inputs;
         targets ← receive_slice t [n; per_device]%Z sent_targets;
         weights ← receive_slice t [n; per_device]%Z sent_weights;
         Ok (inputs, targets, weights)
       else Err RuntimeError);
  inputs' ← permute_0312 inputs;
  Ok (mkBatch inputs' targets (Some weights)).

(** The loop: a batch is yielded for each batch of the iterator, until a turn
    fails or the iterator is exhausted; in rank 0 the StopIteration of [next]
    then leaves the generator as a RuntimeError, the other ranks wait for a
    broadcast that never comes. *)
Fixpoint queue_loop (t : topology) (per_device : Z) (np_iter : list np_batch)
    : list Batch * error :=
  match np_iter with
  | [] => ([], if decide (RANK t = 0)%nat then RuntimeError
               else CollectiveStalled)
  | pulled :: rest =>
      match queue_step t per_device pulled with
      | Ok batch =>
          let '(batches, e) := queue_loop t per_device rest in
          (batch :: batches, e)
      | Err e => ([], e)
      end
  end.

(** [MnistWorkload._build_input_queue]: the batches that the generator yields
    and the exception that ends it. *)
Definition _build_input_queue (t : topology) (global_batch_size : Z)
    (np_iter : list np_batch) : list Batch * error :=
  match per_device_batch_size global_batch_size (N_GPUS t) with
  | Ok per_device => queue_loop t per_device np_iter
  | Err e => ([], e)
  end.

(** The two ways of distributing a batch over [n] workers: one process per
    worker with collective broadcasts, or one process for all of them. *)
Definition mode_A (n rank : nat) : topology := mkTopology true rank n.
Definition mode_B (n : nat) : topology := mkTopology false 0 n.

(** A batch of the iterator for [n] workers and [p] examples per worker. *)
Definition np_batch_ok (n p : nat) (b : np_batch) : Prop :=
  shape (np_inputs b) = [n; p; 28; 28; 1]%nat ∧ wf (np_inputs b) ∧
  shape (np_targets b) = [n; p] ∧ wf (np_targets b) ∧
  shape (np_weights b) = [n; p] ∧ wf (np_weights b).

(** Concatenation along the first axis, [torch.cat(ts, 0)], on tensors that
    agree on the other axes. *)
Definition cat0 {A} (ts : list (tensor A)) : tensor A :=
  Tensor (sum_list ((λ t, hd 0%nat (shape t)) <$> ts)
            :: from_option (λ t, tail (shape t)) [] (head ts))
         (ts ≫= data).

(** The batches of all workers put together, in the order of the ranks. *)
Definition gather (bs : list Batch) : Batch :=
  mkBatch (cat0 (inputs <$> bs)) (cat0 (targets <$> bs))
          (cat0 <$> mapM weights bs).

(** Closed forms of one turn of the queue on a batch of the iterator: what
    the worker [r] gets in mode A, and what the one process gets in mode B
    ([queue_step_mode_A] and [queue_step_mode_B] below). *)
Definition worker_batch (p r : nat) (b : np_batch) : Batch :=
  mkBatch
    (Tensor [p; 1; 28; 28]%nat
       (chunks (28 * 28 * 1) p
          (take (numel [p; 28; 28; 1]%nat)
             (drop (r * numel [p; 28; 28; 1]%nat) (data (np_inputs b))))
        ≫= channel_first (28 * 28) 1))
    (Tensor [p]
       (take (numel [p]) (drop (r * numel [p]) (data (np_targets b)))))
    (Some (Tensor [p]
       (take (numel [p])
          (drop (r * numel [p]) (to_bool <$> data (np_weights b)))))).

Definition whole_batch (n p : nat) (b : np_batch) : Batch :=
  mkBatch
    (Tensor [(n * p)%nat; 1; 28; 28]%nat
       (chunks (28 * 28 * 1) (n * p) (data (np_inputs b))
        ≫= channel_first (28 * 28) 1))
    (Tensor [(n * p)%nat] (data (np_targets b)))
    (Some (Tensor [(n * p)%nat] (to_bool <$> data (np_weights b)))).


(** A batch of the iterator for two workers and one example per worker. *)
Definition example_np_batch : np_batch :=
  mkNpBatch (Tensor [2; 1; 28; 28; 1]%nat (replicate 784 0 ++ replicate 784 1))
            (Tensor [2; 1]%nat [3; 5]%Z)
            (Tensor [2; 1]%nat [1; 0]).

(** A small module of the same make (two inputs, two hidden units, two
    classes) and a batch of two examples for it. *)
Definition example_model : _Model :=
  Model_init [[1; 0]; [0; 1]] [0; 0] [[1; 0]; [0; 1]] [0; 0].

Definition example_batch : Batch :=
  mkBatch (Tensor [2; 1; 1; 2]%nat [1; 2; 2; 1])
          (Tensor [2]%nat [0; 0]%Z)
          (Some (Tensor [2]%nat [true; false])).

(** An instance with rational stand-ins for the two transcendental functions,
    used only to evaluate the definitions at concrete inputs. *)
Program Definition rational_ops : TorchOps := {|
  sigmoid x := x / (1 + x * x);
  cross_entropy logits labels label_smoothing :=
    (λ row, tsum row + label_smoothing) <$> logits
|}.
Next Obligation. intros. apply length_fmap. Qed.

(** * Properties *)

(** ** Parameter names *)

Lemma is_output_params_spec (k : string) :
  is_output_params k = true ↔ k = "net.layer2.weight" ∨ k = "net_layer2.bias".
Proof.
  unfold is_output_params. rewrite bool_decide_eq_true.
  rewrite !elem_of_cons, elem_of_nil. tauto.
Qed.

(** C1, on the code: the bias of the final linear layer of [_Model] is named
    [net.layer2.bias], and [is_output_params] answers false for that name
    (the list it looks the name up in spells it [net_layer2.bias]). *)
Theorem is_output_params_misses_final_bias w1 b1 w2 b2 :
  let m := Model_init w1 b1 w2 b2 in
  final_linear_param_names m = ["net.layer2.weight"; "net.layer2.bias"] ∧
  "net.layer2.bias" ∈ named_parameters m ∧
  is_output_params "net.layer2.weight" = true ∧
  is_output_params "net.layer2.bias" = false.
Proof.
  repeat split.
  cbn. rewrite !elem_of_cons. tauto.
Qed.

(** ** Per-device batch size *)

(** The division through the float is exact on sizes below [2^53]. *)

Lemma round_half_even_bounds (n d : Z) :
  (0 < d)%Z → (0 ≤ n)%Z →
  (n `div` d ≤ round_half_even n d ≤ n `div` d + 1)%Z ∧
  (round_half_even n d = n `div` d + 1 → d ≤ 2 * (n `mod` d))%Z.
Proof.
  intros Hd Hn. unfold round_half_even.
  destruct (Z.ltb_spec (2 * (n `mod` d)) d);
    [|destruct (Z.ltb_spec d (2 * (n `mod` d)));
      [|destruct (Z.even (n `div` d))]]; lia.
Qed.

Lemma trunc_round (a b P : Z) :
  (0 < b)%Z → (0 ≤ a)%Z → (1 ≤ P)%Z → (b < 2 * P)%Z →
  (round_half_even (a * P) b `div` P = a `div` b)%Z.
Proof.
  intros Hb Ha HP HbP.
  destruct (round_half_even_bounds (a * P) b Hb ltac:(nia)) as [[Hlo Hhi] Hup].
  set (m := round_half_even (a * P) b) in *.
  pose proof (Z.div_mod a b ltac:(lia)) as Ha'.
  pose proof (Z.mod_pos_bound a b Hb) as Hr0.
  pose proof (Z.div_mod (a * P) b ltac:(lia)) as Hn'.
  pose proof (Z.mod_pos_bound (a * P) b Hb) as Hr.
  set (F := (a `div` b)%Z) in *. set (r0 := (a `mod` b)%Z) in *.
  set (q := ((a * P) `div` b)%Z) in *. set (r := ((a * P) `mod` b)%Z) in *.
  assert (HF : (0 ≤ F)%Z) by (subst F; apply Z.div_pos; lia).
  assert (Hq1 : (F * P ≤ q)%Z) by nia.
  assert (Hq2 : (q < (F + 1) * P)%Z) by nia.
  assert (Hm : (m < (F + 1) * P)%Z).
  { destruct (decide (m = q + 1)%Z) as [Hmq|Hmq]; [|lia].
    specialize (Hup Hmq).
    destruct (decide (q + 1 < (F + 1) * P)%Z) as [|Hge]; [lia|].
    assert (q = (F + 1) * P - 1)%Z as Hqe by lia.
    assert (r = b - (b - r0) * P)%Z as Hre by nia.
    nia. }
  symmetry. apply (Z.div_unique m P F (m - P * F)); lia.
Qed.

Lemma trunc_round_small (a b P : Z) :
  (0 ≤ a)%Z → (a < P)%Z → (2 ≤ P)%Z → (2 * P ≤ b)%Z →
  (round_half_even (a * P) b `div` P = a `div` b)%Z.
Proof.
  intros Ha HaP HP HbP.
  destruct (round_half_even_bounds (a * P) b ltac:(lia) ltac:(nia))
    as [[Hlo Hhi] _].
  pose proof (Z.div_mod (a * P) b ltac:(lia)) as Hn'.
  pose proof (Z.mod_pos_bound (a * P) b ltac:(lia)) as Hr.
  set (q := ((a * P) `div` b)%Z) in *. set (r := ((a * P) `mod` b)%Z) in *.
  assert (Hq0 : (0 ≤ q)%Z) by (subst q; apply Z.div_pos; nia).
  assert (Hq : (2 * q ≤ a)%Z) by nia.
  rewrite (Z.div_small a b) by lia.
  apply Z.div_small. lia.
Qed.

Lemma floor_log2_ratio_lower (a b : Z) :
  (0 < a)%Z → (0 < b)%Z →
  let k := floor_log2_ratio a b in
  (b * 2 ^ Z.max k 0 ≤ a * 2 ^ Z.max (- k) 0)%Z.
Proof.
  intros Ha Hb. unfold floor_log2_ratio.
  set (d := (Z.log2 a - Z.log2 b)%Z).
  destruct (Z.leb_spec (b * 2 ^ Z.max d 0) (a * 2 ^ Z.max (- d) 0))
    as [Hle|Hgt]; [done|]. cbn zeta.
  pose proof (Z.log2_nonneg a) as Hla. pose proof (Z.log2_nonneg b) as Hlb.
  destruct (Z.log2_spec a Ha) as [Ha1 _]. destruct (Z.log2_spec b Hb) as [_ Hb2].
  destruct (decide (1 ≤ d)%Z) as [Hd|Hd].
  - rewrite (Z.max_l (d - 1) 0), (Z.max_r (- (d - 1)) 0) by lia.
    rewrite Z.pow_0_r.
    assert (2 ^ Z.log2 a = 2 ^ Z.succ (Z.log2 b) * 2 ^ (d - 1))%Z as Heq.
    { rewrite <-Z.pow_add_r by lia. f_equal; subst d; lia. }
    assert (0 < 2 ^ (d - 1))%Z by (apply Z.pow_pos_nonneg; lia).
    nia.
  - rewrite (Z.max_r (d - 1) 0), (Z.max_l (- (d - 1)) 0) by lia.
    rewrite Z.pow_0_r.
    assert (2 ^ Z.succ (Z.log2 b) = 2 ^ Z.log2 a * 2 ^ (- (d - 1)))%Z as Heq.
    { rewrite <-Z.pow_add_r by lia. f_equal; subst d; lia. }
    assert (0 < 2 ^ (- (d - 1)))%Z by (apply Z.pow_pos_nonneg; lia).
    nia.
Qed.

Lemma int_true_divide_pos (a b : Z) :
  (0 < a < 2 ^ 53)%Z → (0 < b)%Z → int_true_divide a b = Ok (a `div` b)%Z.
Proof.
  intros [Ha Ha53] Hb. unfold int_true_divide, binary64_of_ratio.
  rewrite !decide_False by lia.
  rewrite (Z.abs_eq a), (Z.abs_eq b) by lia.
  pose proof (floor_log2_ratio_lower a b Ha Hb) as HK. cbn zeta in HK.
  set (k := floor_log2_ratio a b) in *.
  assert (Hk : (k ≤ 52)%Z).
  { destruct (decide (k ≤ 52)%Z) as [|Hk]; [done|].
    rewrite (Z.max_l k 0), (Z.max_r (- k) 0), Z.pow_0_r in HK by lia.
    assert (2 ^ 53 ≤ 2 ^ k)%Z by (apply Z.pow_le_mono_r; lia). nia. }
  set (e := Z.max (k - 52) (-1074)).
  assert (He : (-1074 ≤ e ≤ 0)%Z) by (subst e; lia).
  rewrite (Z.max_r e 0), (Z.max_l (- e) 0), Z.pow_0_r, Z.mul_1_r by lia.
  set (P := (2 ^ (- e))%Z).
  assert (HP : (1 ≤ P)%Z).
  { subst P. pose proof (Z.pow_pos_nonneg 2 (- e)). lia. }
  set (m := round_half_even (a * P) b).
  assert (Hdiv : (m `div` P = a `div` b)%Z).
  { destruct (decide (b < 2 * P)%Z) as [HbP|HbP];
      [by apply trunc_round; lia|].
    assert (Hcap : e = (-1074)%Z).
    { destruct (decide (e = -1074)%Z) as [|Hne]; [done|]. exfalso.
      assert (e = k - 52)%Z as Hek by (subst e; lia).
      assert (2 * P = 2 ^ (53 - k))%Z as HPk.
      { subst P. rewrite <-(Z.pow_succ_r 2 (- e)) by lia. f_equal; lia. }
      destruct (decide (0 ≤ k)%Z) as [Hk0|Hk0].
      - rewrite (Z.max_l k 0), (Z.max_r (- k) 0), Z.pow_0_r in HK by lia.
        assert (2 ^ 53 = 2 ^ k * 2 ^ (53 - k))%Z as Hsplit.
        { rewrite <-Z.pow_add_r by lia. f_equal; lia. }
        assert (0 < 2 ^ k)%Z by (apply Z.pow_pos_nonneg; lia).
        nia.
      - rewrite (Z.max_r k 0), (Z.max_l (- k) 0), Z.pow_0_r in HK by lia.
        assert (2 ^ (53 - k) = 2 ^ 53 * 2 ^ (- k))%Z as Hsplit.
        { rewrite <-Z.pow_add_r by lia. f_equal; lia. }
        assert (0 < 2 ^ (- k))%Z by (apply Z.pow_pos_nonneg; lia).
        nia. }
    assert (2 ^ 53 < P)%Z
      by (subst P; rewrite Hcap; apply Z.pow_lt_mono_r; lia).
    apply trunc_round_small; lia. }
  assert (Hm : (m < 2 ^ (1024 - e))%Z).
  { destruct (round_half_even_bounds (a * P) b Hb ltac:(nia)) as [[_ Hhi] _].
    fold m in Hhi.
    assert (((a * P) `div` b ≤ a * P)%Z)
      by (apply Z.div_le_upper_bound; nia).
    assert (2 ^ (1024 - e) = 2 ^ 1024 * P)%Z as ->.
    { subst P. rewrite <-Z.pow_add_r by lia. f_equal; lia. }
    assert (2 ^ 53 < 2 ^ 1024)%Z by (apply Z.pow_lt_mono_r; lia).
    nia. }
  destruct (Z.leb_spec (2 ^ (1024 - e)) m) as [|_]; [lia|].
  rewrite Z.sgn_pos, Z.sgn_pos by lia. f_equal.
  destruct (Z.leb_spec 0 e) as [He0|He0].
  - assert (e = 0)%Z as He00 by lia.
    subst P. rewrite He00 in *. cbn [Z.opp] in Hdiv.
    rewrite Z.pow_0_r in *. rewrite Z.div_1_r in Hdiv. lia.
  - fold P. lia.
Qed.

Lemma int_true_divide_exact (g : Z) (n : nat) :
  (0 < n)%nat → (Z.abs g < 2 ^ 53)%Z →
  int_true_divide g (Z.of_nat n) = per_device_batch_size g n.
Proof.
  intros Hn Hg. unfold per_device_batch_size. rewrite decide_False by lia.
  destruct (Z.lt_trichotomy g 0) as [Hneg|[->|Hpos]].
  - pose proof (int_true_divide_pos (- g) (Z.of_nat n)
                  ltac:(lia) ltac:(lia)) as Hpos.
    unfold int_true_divide in *. rewrite !decide_False in * by lia.
    rewrite Z.abs_opp in Hpos.
    destruct (binary64_of_ratio (Z.abs g) (Z.abs (Z.of_nat n))) as [m e].
    destruct (2 ^ (1024 - e) <=? m)%Z; [done|].
    injection Hpos as Hpos. f_equal.
    rewrite Z.sgn_opp, (Z.sgn_neg g), (Z.sgn_pos (Z.of_nat n)) in * by lia.
    replace (g ÷ Z.of_nat n)%Z with (- ((- g) ÷ Z.of_nat n))%Z
      by (rewrite Z.quot_opp_l by lia; lia).
    rewrite Z.quot_div_nonneg by lia. lia.
  - unfold int_true_divide. rewrite decide_False, decide_True by lia.
    by rewrite Z.quot_0_l by lia.
  - rewrite int_true_divide_pos by lia.
    by rewrite Z.quot_div_nonneg by lia.
Qed.

(** C8, as the code has it: for every worker count [n >= 1] and every global
    batch size [g] below [2^53] in absolute value, [int(g / n)] is computed
    without error and is the exact quotient truncated to an integer; for
    [g >= 0] the workers together hold [n * (g / n)] examples, which leaves
    out the remainder [g mod n], and this remainder is not zero exactly when
    [n] does not divide [g]; divisibility is not checked, and the queue goes
    on with the truncated size. *)
Theorem per_device_batch_size_truncates (g : Z) (n : nat) :
  (0 < n)%nat → (Z.abs g < 2 ^ 53)%Z →
  int_true_divide g (Z.of_nat n) = Ok (g ÷ Z.of_nat n)%Z ∧
  per_device_batch_size g n = Ok (g ÷ Z.of_nat n)%Z ∧
  ((0 ≤ g)%Z →
   (g ÷ Z.of_nat n = g `div` Z.of_nat n)%Z ∧
   (g = Z.of_nat n * (g ÷ Z.of_nat n) + g `mod` Z.of_nat n)%Z ∧
   (0 ≤ g `mod` Z.of_nat n < Z.of_nat n)%Z ∧
   (¬ (Z.of_nat n | g)%Z ↔ (Z.of_nat n * (g ÷ Z.of_nat n) < g)%Z)) ∧
  (∀ t np_iter, N_GPUS t = n →
     _build_input_queue t g np_iter = queue_loop t (g ÷ Z.of_nat n) np_iter).
Proof.
  intros Hn Hbound.
  assert (Hpd : per_device_batch_size g n = Ok (g ÷ Z.of_nat n)%Z).
  { unfold per_device_batch_size. case_decide; [lia | done]. }
  split; [by rewrite int_true_divide_exact|].
  split; [done | split].
  - intros Hg.
    assert (Hq : (g ÷ Z.of_nat n = g `div` Z.of_nat n)%Z)
      by (apply Z.quot_div_nonneg; lia).
    rewrite Hq.
    pose proof (Z.div_mod g (Z.of_nat n) ltac:(lia)) as Hdm.
    pose proof (Z.mod_pos_bound g (Z.of_nat n) ltac:(lia)) as Hb.
    repeat split; try lia.
    + intros Hnd. destruct (decide (g `mod` Z.of_nat n = 0)%Z) as [H0|]; [|lia].
      destruct Hnd. apply Z.mod_divide; [lia | done].
    + intros Hlt Hd. apply Z.mod_divide in Hd; lia.
  - intros t np_iter Ht. unfold _build_input_queue. by rewrite Ht, Hpd.
Qed.

Lemma per_device_batch_size_truncates_witness :
  (0 < 2)%nat ∧ (Z.abs 7 < 2 ^ 53)%Z ∧
  int_true_divide 7 2 = Ok 3%Z ∧ per_device_batch_size 7 2 = Ok 3%Z.
Proof.
  split; [lia|]. split; [reflexivity|].
  destruct (per_device_batch_size_truncates 7 2) as (Hfloat & Hpd & _).
  - lia.
  - reflexivity.
  - split; [exact Hfloat | exact Hpd].
Defined.

(** C8 as stated fails outside these bounds: with no device the division
    raises ZeroDivisionError, and from [2^53] on the float cannot hold the
    quotient, so that [int((2^53 + 1) / 1)] is [2^53], which is not the
    truncation of the exact quotient. *)
Lemma per_device_batch_size_counterexample :
  per_device_batch_size 5 0 = Err ZeroDivisionError ∧
  int_true_divide 5 0 = Err ZeroDivisionError ∧
  int_true_divide (2 ^ 53 + 1) 1 = Ok (2 ^ 53)%Z ∧
  ((2 ^ 53 + 1) ÷ 1 ≠ 2 ^ 53)%Z.
Proof.
  split_and!; [reflexivity | reflexivity | vm_compute; reflexivity |].
  vm_compute. discriminate.
Qed.

Section loss.
Context {ops : TorchOps}.

(** ** Sums and products of 1-d tensors *)

Lemma imul_same_length (xs ms : list Qc) :
  length ms = length xs → imul xs ms = Ok (zip_with Qcmult xs ms).
Proof. intros Hl. unfold imul. by rewrite decide_True. Qed.

Lemma zip_with_mul_ones (xs : list Qc) :
  zip_with Qcmult xs (ones (length xs)) = xs.
Proof.
  induction xs as [|x xs IH]; [done|].
  cbn. fold (ones (length xs)). by rewrite IH, Qcmult_1_r.
Qed.

Lemma tsum_cons (x : Qc) (l : list Qc) : tsum (x :: l) = x + tsum l.
Proof. reflexivity. Qed.

Lemma tsum_ones (n : nat) : tsum (ones n) = of_nat n.
Proof.
  unfold of_nat, ones. induction n as [|n IH]; [symmetry; apply Z2Qc_inj_0|].
  change (replicate (S n) 1) with (1 :: replicate n 1).
  by rewrite tsum_cons, IH, Nat2Z.inj_succ, <-Z.add_1_l, Z2Qc_inj_add,
    Z2Qc_inj_1.
Qed.

Lemma tsum_zeros (ms : list Qc) : Forall (λ w, w = 0) ms → tsum ms = 0.
Proof.
  induction 1 as [|w ms -> _ IH]; [done|].
  by rewrite tsum_cons, IH.
Qed.

Lemma zip_with_mul_zeros (xs ms : list Qc) :
  Forall (λ w, w = 0) ms →
  Forall (λ w, w = 0) (zip_with Qcmult xs ms).
Proof.
  intros Hms. revert xs.
  induction Hms as [|w ms -> _ IH]; intros [|x xs]; cbn; try done.
  constructor; [apply Qcmult_0_r | apply IH].
Qed.

Lemma Forall_zero_replicate (l : list Qc) :
  Forall (λ w, w = 0) l → l = replicate (length l) 0.
Proof. induction 1 as [|w l -> _ IH]; cbn; by f_equal. Qed.

(** ** [loss_fn] *)

(** C3: for a mask of shape [batch] (or no mask), [loss_fn] returns the
    per-example cross-entropy losses of [F.cross_entropy] with
    [reduction='none'] and the given label smoothing, each multiplied by its
    mask value (by one when there is no mask), and the sum of these products
    divided by the number of valid examples: the sum of the mask, or the size
    of the batch when there is no mask. *)
Theorem loss_fn_masked_mean (label_batch : list Z) (logits : list (list Qc))
    (mask_batch : option (list Qc)) (label_smoothing : Qc) :
  (∀ mask, mask_batch = Some mask → length mask = length logits) →
  let ce := cross_entropy logits label_batch label_smoothing in
  let masked := zip_with Qcmult ce (default (ones (length logits)) mask_batch) in
  let n_valid := from_option tsum (of_nat (length logits)) mask_batch in
  loss_fn label_batch logits mask_batch label_smoothing
    = Ok (true_divide (tsum masked) n_valid, masked) ∧
  masked = masked_losses_spec ce mask_batch ∧
  true_divide (tsum masked) n_valid = mean_loss_spec ce mask_batch.
Proof.
  intros Hlen ce masked n_valid.
  assert (Hce : length ce = length logits) by apply cross_entropy_length.
  split; [|by unfold mean_loss_spec, masked_losses_spec; rewrite Hce].
  unfold loss_fn. fold ce. subst masked n_valid.
  destruct mask_batch as [mask|]; cbn.
  - rewrite imul_same_length by (rewrite Hce; auto). done.
  - rewrite <-Hce, zip_with_mul_ones. done.
Qed.

(** C6: with a mask of ones the scalar loss is the one obtained without a
    mask, the sum of the per-example cross-entropy losses divided by the size
    of the batch. *)
Theorem loss_fn_all_ones_mask (label_batch : list Z) (logits : list (list Qc))
    (label_smoothing : Qc) :
  let ce := cross_entropy logits label_batch label_smoothing in
  fst <$> loss_fn label_batch logits (Some (ones (length logits))) label_smoothing
    = fst <$> loss_fn label_batch logits None label_smoothing ∧
  fst <$> loss_fn label_batch logits None label_smoothing
    = Ok (true_divide (tsum ce) (of_nat (length logits))).
Proof.
  intros ce.
  assert (Hce : length ce = length logits) by apply cross_entropy_length.
  unfold loss_fn. fold ce. cbn.
  rewrite imul_same_length by (unfold ones; rewrite length_replicate; done).
  cbn. rewrite <-Hce, zip_with_mul_ones, tsum_ones. done.
Qed.

(** C7: with a mask of zeros of shape [batch] the number of valid examples is
    zero, no exception is raised, and the scalar loss is the not-a-number
    result of dividing zero by zero. *)
Theorem loss_fn_all_zeros_mask (label_batch : list Z) (logits : list (list Qc))
    (mask : list Qc) (label_smoothing : Qc) :
  length mask = length logits →
  Forall (λ w, w = 0) mask →
  let ce := cross_entropy logits label_batch label_smoothing in
  n_valid_examples (Some mask) ce = 0 ∧
  loss_fn label_batch logits (Some mask) label_smoothing
    = Ok (NaN, replicate (length logits) 0).
Proof.
  intros Hlen Hzero ce.
  assert (Hce : length ce = length logits) by apply cross_entropy_length.
  assert (Hn : tsum mask = 0) by by apply tsum_zeros.
  split; [done|].
  unfold loss_fn. fold ce.
  rewrite imul_same_length by congruence. cbn.
  pose proof (zip_with_mul_zeros ce mask Hzero) as Hz.
  rewrite Hn, (tsum_zeros _ Hz).
  rewrite (Forall_zero_replicate _ Hz), length_zip_with, Hce, Hlen, Nat.min_id.
  done.
Qed.

(** C9: with a mask of shape [batch], the vector that [loss_fn] returns is
    the vector of cross-entropy losses multiplied by the mask, and it is zero
    wherever the mask is zero. *)
Theorem loss_fn_returns_masked_vector (label_batch : list Z)
    (logits : list (list Qc)) (mask : list Qc) (label_smoothing : Qc) :
  length mask = length logits →
  let ce := cross_entropy logits label_batch label_smoothing in
  ∃ mean,
    loss_fn label_batch logits (Some mask) label_smoothing
      = Ok (mean, zip_with Qcmult ce mask) ∧
    length (zip_with Qcmult ce mask) = length logits ∧
    ∀ i, mask !! i = Some 0 → zip_with Qcmult ce mask !! i = Some 0.
Proof.
  intros Hlen ce.
  assert (Hce : length ce = length logits) by apply cross_entropy_length.
  eexists. split; [|split].
  - unfold loss_fn. fold ce. rewrite imul_same_length by congruence. done.
  - rewrite length_zip_with. lia.
  - intros i Hi. rewrite lookup_zip_with, Hi.
    destruct (lookup_lt_is_Some_2 ce i) as [x ->]; cbn.
    + apply lookup_lt_Some in Hi. lia.
    + by rewrite Qcmult_0_r.
Qed.

End loss.

Section forward_pass.
Context {ops : TorchOps}.

(** ** [model_fn] and the training flag *)

Lemma model_fn_EVAL_state params batch g :
  (model_fn params batch EVAL g).1 = eval params.
Proof. reflexivity. Qed.

Lemma model_fn_TRAIN_state params batch g :
  (model_fn params batch TRAIN g).1 = params.
Proof. reflexivity. Qed.

Lemma eval_idemp params : training params = false → eval params = params.
Proof. destruct params as [n t]. cbn. by intros ->. Qed.

Lemma training_model_after params calls :
  training (model_after params calls)
  = training params && forallb (λ call, bool_decide (call.2 = TRAIN)) calls.
Proof.
  unfold model_after. revert params.
  induction calls as [|[b mode] calls IH]; intros params; cbn [foldl forallb].
  - by rewrite andb_true_r.
  - rewrite IH. destruct mode; cbn.
    + done.
    + by rewrite andb_false_r.
Qed.

(** C10: a call of [model_fn] in mode EVAL leaves the module in evaluation
    mode whatever it was in, a call in mode TRAIN leaves the module as it
    found it; so once a call in mode EVAL has been made, the module is in
    evaluation mode after any further calls, a later call in mode TRAIN runs
    it in that state, and that call differs from one in mode EVAL only in the
    gradient tracking of the scores. *)
Theorem model_fn_eval_flag_sticks params calls1 batch_eval calls2 batch g :
  let m := model_after params (calls1 ++ (batch_eval, EVAL) :: calls2) in
  training (model_fn params batch EVAL g).1 = false ∧
  (model_fn params batch TRAIN g).1 = params ∧
  training m = false ∧
  (model_fn m batch TRAIN g).1 = m ∧
  (model_fn m batch EVAL g).1 = m ∧
  logits_batch <$> (model_fn m batch TRAIN g).2
    = logits_batch <$> (model_fn m batch EVAL g).2 ∧
  requires_grad <$> (model_fn m batch TRAIN g).2
    = (λ _, g) <$> forward m (inputs batch) ∧
  requires_grad <$> (model_fn m batch EVAL g).2
    = (λ _, false) <$> forward m (inputs batch).
Proof.
  intros m.
  assert (Hm : training m = false).
  { subst m. rewrite training_model_after, forallb_app. cbn.
    by rewrite !andb_false_r. }
  assert (He : eval m = m) by by apply eval_idemp.
  repeat split; try done.
  all: unfold model_fn; cbn; repeat case_decide; try done; rewrite ?He.
  all: by destruct (forward m (inputs batch)).
Qed.

(** ** Arg-max *)

Lemma argmax_from_spec (row pre : list Qc) (best_i : nat) (best : Qc) :
  pre !! best_i = Some best →
  (∀ j w, pre !! j = Some w → w ≤ best) →
  (∀ j w, (j < best_i)%nat → pre !! j = Some w → w < best) →
  is_argmax (pre ++ row) (argmax_from best_i best (length pre) row).
Proof.
  revert pre best_i best.
  induction row as [|x row IH]; intros pre best_i best Hbest Hmax Hfirst.
  - rewrite app_nil_r. by exists best.
  - cbn [argmax_from]. rewrite (cons_middle x pre row), app_assoc.
    replace (S (length pre)) with (length (pre ++ [x]))
      by (rewrite length_app; cbn; lia).
    assert (Hlt : (best_i < length pre)%nat) by by eapply lookup_lt_Some.
    pose proof (Qclt_le_dec best x) as Hcmp.
    case_decide as Hx; apply IH.
    + by rewrite lookup_app_r, Nat.sub_diag.
    + intros j w Hj. apply lookup_app_Some in Hj as [Hj|[_ Hj]].
      * apply Qclt_le_weak. eapply Qcle_lt_trans; [by eapply Hmax | done].
      * apply list_lookup_singleton_Some in Hj as [_ <-]. apply Qcle_refl.
    + intros j w Hj Hw. rewrite lookup_app_l in Hw by done.
      eapply Qcle_lt_trans; [by eapply Hmax | done].
    + by rewrite lookup_app_l.
    + intros j w Hj. apply lookup_app_Some in Hj as [Hj|[_ Hj]].
      * by eapply Hmax.
      * apply list_lookup_singleton_Some in Hj as [_ <-].
        destruct Hcmp; done.
    + intros j w Hj Hw. rewrite lookup_app_l in Hw by lia. by eapply Hfirst.
Qed.

Lemma argmax_spec (row : list Qc) :
  row ≠ [] → ∃ i, argmax row = Ok i ∧ is_argmax row i.
Proof.
  destruct row as [|x row]; [done|]. intros _.
  eexists. split; [done|].
  apply (argmax_from_spec row [x] 0 x).
  - done.
  - intros [|j] w Hj; cbn in Hj; [|done].
    injection Hj as <-. apply Qcle_refl.
  - intros j w Hj. lia.
Qed.

Lemma max_dim1_spec (logits : list (list Qc)) :
  Forall (λ row, row ≠ []) logits →
  ∃ predicted, max_dim1 logits = Ok predicted ∧
               Forall2 is_argmax logits predicted.
Proof.
  unfold max_dim1.
  induction 1 as [|row logits Hrow _ [predicted [Hp Hall]]].
  - by exists [].
  - destruct (argmax_spec row Hrow) as [i [Hi Hmax]].
    exists (i :: predicted). split; [|by constructor].
    cbn. rewrite Hi. cbn. by rewrite Hp.
Qed.

Lemma broadcast_with_same_length {A B C} (f : A → B → C) xs ys :
  length xs = length ys → broadcast_with f xs ys = Ok (zip_with f xs ys).
Proof. intros Hl. unfold broadcast_with. by rewrite decide_True. Qed.

(** ** [_eval_model] *)

(** C4: when the forward pass of the module in evaluation mode gives scores
    with at least one class, and the targets and the weights (when the batch
    has them) hold one value per example, [_eval_model] leaves the module in
    evaluation mode and returns as accuracy the sum over the examples of
    [1[predicted = target] * weight], where the predicted class is the index
    of the first greatest score, and as loss the sum of the per-example
    cross-entropy losses times the weights; the weight of an example is one
    or zero as the batch marks it true or false, and one for every example
    when the batch has no weights. *)
Theorem eval_model_metrics (params : _Model) (batch : Batch)
    (logits : list (list Qc)) :
  forward (eval params) (inputs batch) = Ok logits →
  Forall (λ row, row ≠ []) logits →
  length (data (targets batch)) = length logits →
  (∀ w, weights batch = Some w → length (data w) = length logits) →
  let w :=
    match weights batch with
    | Some marks => (λ mark : bool, if mark then 1 else 0) <$> data marks
    | None => replicate (length logits) 1
    end in
  let ce := cross_entropy logits (data (targets batch)) 0 in
  ∃ predicted,
    max_dim1 logits = Ok predicted ∧
    Forall2 is_argmax logits predicted ∧
    _eval_model params batch =
      (eval params,
       Ok (mkMetrics
             (tsum (zip_with (λ (c : bool) w, (if c then 1 else 0) * w)
                      (zip_with (λ p t, bool_decide (Z.of_nat p = t))
                         predicted (data (targets batch)))
                      w))
             (tsum (zip_with Qcmult ce w)))) ∧
    training (_eval_model params batch).1 = false.
Proof.
  intros Hfwd Hrows Htargets Hweights w ce.
  destruct (max_dim1_spec logits Hrows) as [predicted [Hmax Hpred]].
  exists predicted. split; [done|]. split; [done|].
  assert (Hlp : length predicted = length logits)
    by (symmetry; by eapply Forall2_length).
  assert (Hw : eval_weights batch (length logits) = w).
  { subst w. unfold eval_weights, ones, of_bool.
    by destruct (weights batch). }
  assert (Hlw : length w = length logits).
  { subst w. destruct (weights batch) as [bw|] eqn:Hbw.
    - rewrite length_fmap. by apply Hweights.
    - apply length_replicate. }
  assert (Hrun : _eval_model params batch = (eval params,
       Ok (mkMetrics
             (tsum (zip_with (λ (c : bool) w, (if c then 1 else 0) * w)
                      (zip_with (λ p t, bool_decide (Z.of_nat p = t))
                         predicted (data (targets batch)))
                      w))
             (tsum (zip_with Qcmult ce w))))).
  { unfold _eval_model, model_fn. rewrite decide_True by done.
    rewrite Hfwd. cbn -[max_dim1 broadcast_with loss_fn tsum eval_weights].
    f_equal. rewrite Hmax, Hw.
    cbn -[broadcast_with loss_fn tsum].
    rewrite broadcast_with_same_length by congruence.
    cbn -[broadcast_with loss_fn tsum].
    rewrite broadcast_with_same_length
      by (rewrite length_zip_with; lia).
    cbn -[loss_fn tsum].
    unfold loss_fn. fold ce.
    rewrite imul_same_length
      by (subst ce; rewrite cross_entropy_length; done).
    done. }
  split; [done|]. by rewrite Hrun.
Qed.

End forward_pass.

(** ** Slices and chunks *)

Section slices.
Context {A : Type}.
Implicit Types (l ex : list A) (k n p r i b hw c : nat).

Lemma seq_mul n p :
  seq 0 (n * p) = seq 0 n ≫= (λ r, (λ i, r * p + i)%nat <$> seq 0 p).
Proof.
  induction n as [|n IH]; [done|].
  replace (S n * p)%nat with (n * p + p)%nat by lia.
  rewrite seq_app, seq_S, bind_app, bind_singleton, <-IH. cbn.
  f_equal. rewrite <-(Nat.add_0_r (n * p)) at 1. symmetry. apply fmap_add_seq.
Qed.

Lemma chunk_of_slice k p r i l :
  (i < p)%nat →
  take k (drop (i * k) (take (p * k) (drop (r * (p * k)) l)))
  = take k (drop ((r * p + i) * k) l).
Proof.
  intros Hi.
  replace (p * k)%nat with (i * k + (p * k - i * k))%nat at 1 by nia.
  rewrite <-take_drop_commute, take_take, drop_drop.
  f_equal; [|f_equal]; nia.
Qed.

Lemma fmap_bind_list {X Y Z} (g : X → list Y) (f : Y → Z) (xs : list X) :
  f <$> (xs ≫= g) = xs ≫= (λ x, f <$> g x).
Proof.
  induction xs as [|x xs IH]; [done|].
  by rewrite !bind_cons, fmap_app, IH.
Qed.

Lemma bind_bind_list {X Y Z} (g : X → list Y) (f : Y → list Z) (xs : list X) :
  (xs ≫= g) ≫= f = xs ≫= (λ x, g x ≫= f).
Proof.
  induction xs as [|x xs IH]; [done|].
  by rewrite !bind_cons, bind_app, IH.
Qed.

(** The chunks of the whole are the chunks of its slices, slice by slice. *)
Lemma chunks_slices k n p l :
  chunks k (n * p) l
  = seq 0 n ≫= (λ r, chunks k p (take (p * k) (drop (r * (p * k)) l))).
Proof.
  unfold chunks. rewrite seq_mul, fmap_bind_list.
  apply list_bind_ext; [|done]. intros r.
  rewrite <-list_fmap_compose.
  apply list_fmap_ext. intros j i Hj.
  apply lookup_seq in Hj as [-> Hj]. cbn. symmetry. by apply chunk_of_slice.
Qed.

(** The slices put together are the beginning of the whole. *)
Lemma slices_join k n l :
  seq 0 n ≫= (λ r, take k (drop (r * k) l)) = take (n * k) l.
Proof.
  induction n as [|n IH]; [done|].
  rewrite seq_S, bind_app, bind_singleton, IH. cbn.
  rewrite take_take_drop. f_equal. lia.
Qed.

Lemma length_bind_const {X Y} (f : X → list Y) (xs : list X) k :
  Forall (λ x, length (f x) = k) xs → length (xs ≫= f) = (length xs * k)%nat.
Proof.
  induction 1 as [|x xs Hx _ IH]; [done|].
  rewrite bind_cons, length_app, Hx, IH. cbn. lia.
Qed.

Lemma length_omap_total {B} (f : B → option A) (xs : list B) :
  Forall (λ x, is_Some (f x)) xs → length (omap f xs) = length xs.
Proof.
  induction 1 as [|x xs [y Hy] _ IH]; [done|].
  cbn. rewrite Hy. cbn. by rewrite IH.
Qed.

Lemma length_channel_first hw c ex :
  length ex = (hw * c)%nat → length (channel_first hw c ex) = (hw * c)%nat.
Proof.
  intros Hex. unfold channel_first.
  rewrite (length_bind_const _ _ hw), length_seq; [lia|].
  apply Forall_forall. intros ci Hci%elem_of_seq.
  rewrite length_omap_total, length_seq; [done|].
  apply Forall_forall. intros q Hq%elem_of_seq.
  apply lookup_lt_is_Some. nia.
Qed.

Lemma length_chunk k i l :
  ((i + 1) * k ≤ length l)%nat → length (take k (drop (i * k) l)) = k.
Proof. intros Hl. rewrite length_take, length_drop. lia. Qed.

Lemma length_permuted b hw c l :
  length l = (b * (hw * c))%nat →
  length (chunks (hw * c) b l ≫= channel_first hw c) = (b * (hw * c))%nat.
Proof.
  intros Hl. rewrite (length_bind_const _ _ (hw * c)).
  - unfold chunks. by rewrite length_fmap, length_seq.
  - unfold chunks. apply Forall_fmap, Forall_forall.
    intros i Hi%elem_of_seq. cbn.
    apply length_channel_first, length_chunk. nia.
Qed.

End slices.

(** ** One turn of the input queue *)

Lemma index0_ok {A} (t : tensor A) d rest i :
  shape t = d :: rest → (i < d)%nat →
  index0 t i
  = Ok (Tensor rest (take (numel rest) (drop (i * numel rest) (data t)))).
Proof. intros Hs Hi. unfold index0. by rewrite Hs, decide_True. Qed.

Lemma view_flat2_ok {A} (t : tensor A) a b rest :
  shape t = a :: b :: rest → numel rest ≠ 0%nat →
  view_flat2 t = Ok (Tensor ((a * b)%nat :: rest) (data t)).
Proof.
  intros Hs Hrest. unfold view_flat2. rewrite Hs. cbn [drop].
  rewrite decide_False by done.
  replace (numel (a :: b :: rest)) with (a * b * numel rest)%nat
    by (unfold numel; cbn [foldr]; symmetry; apply Nat.mul_assoc).
  rewrite Nat.Div0.mod_mul, decide_True by done.
  by rewrite Nat.div_mul.
Qed.

Lemma empty_shape_of_nat (dims : list nat) :
  empty_shape (Z.of_nat <$> dims) = Ok dims.
Proof.
  unfold empty_shape. rewrite decide_True.
  - f_equal. rewrite <-list_fmap_compose.
    rewrite <-(list_fmap_id dims) at 2.
    apply list_fmap_ext. intros. apply Nat2Z.id.
  - apply Forall_fmap, Forall_forall. intros. cbn. lia.
Qed.

Lemma receive_slice_ok {A} (t : topology) (sent : tensor A) n rest :
  shape sent = n :: rest → wf sent → (RANK t < n)%nat →
  receive_slice t (Z.of_nat <$> n :: rest) sent
  = Ok (Tensor rest
          (take (numel rest) (drop (RANK t * numel rest) (data sent)))).
Proof.
  intros Hs Hwf Hr. unfold receive_slice.
  rewrite empty_shape_of_nat. cbn -[numel].
  unfold broadcast_recv. rewrite decide_True by (by rewrite Hwf, Hs).
  cbn -[numel index0]. by rewrite (index0_ok _ n rest).
Qed.

Lemma wf_tmap {A B} (f : A → B) (t : tensor A) : wf t → wf (tmap f t).
Proof. unfold wf, tmap. cbn. by rewrite length_fmap. Qed.

(** The batch of the worker [r] in mode A. *)
Lemma queue_step_mode_A (n p r : nat) (b : np_batch) :
  (r < n)%nat → np_batch_ok n p b →
  queue_step (mode_A n r) (Z.of_nat p) b = Ok (worker_batch p r b).
Proof.
  intros Hr (Hsi & Hwi & Hst & Hwt & Hsw & Hww).
  unfold queue_step.
  assert (Hi : ∀ k, (k < n)%nat →
    index0 (tmap id (np_inputs b)) k
    = Ok (Tensor [p; 28; 28; 1]%nat
            (take (numel [p; 28; 28; 1]%nat)
               (drop (k * numel [p; 28; 28; 1]%nat) (data (np_inputs b)))))).
  { intros k Hk. rewrite (index0_ok _ n [p; 28; 28; 1]%nat) by done.
    cbn [tmap data]. by rewrite list_fmap_id. }
  assert (Ht : ∀ k, (k < n)%nat →
    index0 (tmap id (np_targets b)) k
    = Ok (Tensor [p]
            (take (numel [p]) (drop (k * numel [p]) (data (np_targets b)))))).
  { intros k Hk. rewrite (index0_ok _ n [p]) by done.
    cbn [tmap data]. by rewrite list_fmap_id. }
  assert (Hw : ∀ k, (k < n)%nat →
    index0 (tmap to_bool (np_weights b)) k
    = Ok (Tensor [p]
            (take (numel [p])
               (drop (k * numel [p]) (to_bool <$> data (np_weights b)))))).
  { intros k Hk. by rewrite (index0_ok _ n [p]). }
  destruct r as [|r'].
  - cbn [mode_A RANK USE_PYTORCH_DDP]. rewrite decide_True by done.
    rewrite Hi, Ht, Hw by done. reflexivity.
  - cbn [mode_A RANK USE_PYTORCH_DDP N_GPUS]. rewrite decide_False by done.
    rewrite (receive_slice_ok _ (tmap id (np_inputs b)) n [p; 28; 28; 1]%nat),
            (receive_slice_ok _ (tmap id (np_targets b)) n [p]),
            (receive_slice_ok _ (tmap to_bool (np_weights b)) n [p]);
      try done; try by apply wf_tmap.
    cbn [RANK tmap data]. rewrite !list_fmap_id. reflexivity.
Qed.

(** The batch of the one process in mode B. *)
Lemma queue_step_mode_B (n p : nat) (pd : Z) (b : np_batch) :
  np_batch_ok n p b →
  queue_step (mode_B n) pd b = Ok (whole_batch n p b).
Proof.
  intros (Hsi & Hwi & Hst & Hwt & Hsw & Hww).
  unfold queue_step. cbn [mode_B RANK USE_PYTORCH_DDP].
  rewrite decide_True by done.
  rewrite (view_flat2_ok (tmap id (np_inputs b)) n p [28; 28; 1]%nat),
          (view_flat2_ok (tmap id (np_targets b)) n p []),
          (view_flat2_ok (tmap to_bool (np_weights b)) n p []) by done.
  cbn [tmap data]. rewrite !list_fmap_id. reflexivity.
Qed.

(** ** The whole queue *)

Lemma queue_loop_all_ok (t : topology) (pd : Z) (f : np_batch → Batch)
    (np_iter : list np_batch) :
  Forall (λ b, queue_step t pd b = Ok (f b)) np_iter →
  queue_loop t pd np_iter
  = (f <$> np_iter,
     if decide (RANK t = 0)%nat then RuntimeError else CollectiveStalled).
Proof.
  induction 1 as [|b its Hb _ IH]; [done|].
  cbn [queue_loop]. by rewrite Hb, IH.
Qed.

Lemma per_device_exact (n p : nat) :
  (0 < n)%nat → per_device_batch_size (Z.of_nat (n * p)) n = Ok (Z.of_nat p).
Proof.
  intros Hn. unfold per_device_batch_size. rewrite decide_False by lia.
  f_equal. rewrite Nat2Z.inj_mul, Z.mul_comm. apply Z.quot_mul. lia.
Qed.

Lemma numel_example (p : nat) : numel [p; 28; 28; 1]%nat = (p * (28 * 28 * 1))%nat.
Proof. reflexivity. Qed.

Lemma numel_1d (p : nat) : numel [p] = p.
Proof. unfold numel. cbn. lia. Qed.

Lemma numel_2d (n p : nat) : numel [n; p] = (n * p)%nat.
Proof. unfold numel. cbn. lia. Qed.



Lemma cat0_uniform {A} (f : nat → tensor A) (n p : nat) (rest : list nat) :
  (0 < n)%nat → (∀ r, shape (f r) = p :: rest) →
  cat0 (f <$> seq 0 n) = Tensor ((n * p)%nat :: rest) (seq 0 n ≫= data ∘ f).
Proof.
  intros Hn Hf. unfold cat0. f_equal.
  - f_equal.
    + rewrite <-list_fmap_compose.
      rewrite (sum_list_fmap_same p); [by rewrite length_seq|].
      apply Forall_forall. intros r _. cbn. by rewrite Hf.
    + destruct n as [|n]; [lia|]. cbn. by rewrite Hf.
  - by rewrite list_fmap_bind.
Qed.

Lemma mapM_weights (f : nat → Batch) (w : nat → tensor bool) (l : list nat) :
  (∀ r, weights (f r) = Some (w r)) →
  mapM weights (f <$> l) = Some (w <$> l).
Proof.
  intros Hf. induction l as [|r l IH]; [done|].
  cbn. rewrite Hf. cbn. by rewrite IH.
Qed.

Lemma build_queue_mode_A (n p r : nat) (np_iter : list np_batch) :
  (r < n)%nat → Forall (np_batch_ok n p) np_iter →
  _build_input_queue (mode_A n r) (Z.of_nat (n * p)) np_iter
  = (worker_batch p r <$> np_iter,
     if decide (r = 0)%nat then RuntimeError else CollectiveStalled).
Proof.
  intros Hr Hok. unfold _build_input_queue. cbn [N_GPUS mode_A].
  rewrite per_device_exact by lia.
  rewrite (queue_loop_all_ok _ _ (worker_batch p r)); [done|].
  eapply Forall_impl; [exact Hok|]. intros b Hb.
  by apply queue_step_mode_A.
Qed.

Lemma build_queue_mode_B (n p : nat) (np_iter : list np_batch) :
  (0 < n)%nat → Forall (np_batch_ok n p) np_iter →
  _build_input_queue (mode_B n) (Z.of_nat (n * p)) np_iter
  = (whole_batch n p <$> np_iter, RuntimeError).
Proof.
  intros Hn Hok. unfold _build_input_queue. cbn [N_GPUS mode_B].
  rewrite per_device_exact by done.
  rewrite (queue_loop_all_ok _ _ (whole_batch n p)); [done|].
  eapply Forall_impl; [exact Hok|]. intros b Hb.
  by apply queue_step_mode_B.
Qed.

(** C2: for [n > 0] workers, [p] examples per worker and any sequence of
    batches of the iterator shaped [[n, p, ...]], mode A (one process per
    worker, each taking the slice of its rank after the broadcasts) and mode B
    (one process, the worker axis flattened into the batch axis) yield as many
    batches as the iterator has, and each batch of mode B is the batches of
    the workers of mode A for the same turn put together along the first axis
    in the order of the ranks: same inputs, targets and weights. *)
Theorem queue_modes_agree (n p : nat) (np_iter : list np_batch) :
  (0 < n)%nat →
  Forall (np_batch_ok n p) np_iter →
  let g := Z.of_nat (n * p) in
  let ysA r := (_build_input_queue (mode_A n r) g np_iter).1 in
  let ysB := (_build_input_queue (mode_B n) g np_iter).1 in
  length ysB = length np_iter ∧
  (∀ r, (r < n)%nat → length (ysA r) = length np_iter) ∧
  ∀ k bB, ysB !! k = Some bB →
    ∃ bs, length bs = n ∧
          (∀ r, (r < n)%nat → ysA r !! k = bs !! r) ∧
          gather bs = bB.
Proof.
  intros Hn Hok g ysA ysB.
  assert (HA : ∀ r, (r < n)%nat → ysA r = worker_batch p r <$> np_iter).
  { intros r Hr. subst ysA g. cbn beta. by rewrite build_queue_mode_A. }
  assert (HB : ysB = whole_batch n p <$> np_iter).
  { subst ysB g. by rewrite build_queue_mode_B. }
  split; [by rewrite HB, length_fmap|].
  split; [by intros r Hr; rewrite HA, length_fmap|].
  intros k bB Hk. rewrite HB, list_lookup_fmap in Hk.
  destruct (np_iter !! k) as [b|] eqn:Hb; [|done]. injection Hk as <-.
  assert (Hbok : np_batch_ok n p b).
  { eapply Forall_forall in Hok; [exact Hok|]. by eapply list_elem_of_lookup_2. }
  destruct Hbok as (Hsi & Hwi & Hst & Hwt & Hsw & Hww).
  exists ((λ r, worker_batch p r b) <$> seq 0 n). split; [|split].
  - by rewrite length_fmap, length_seq.
  - intros r Hr. rewrite HA, !list_lookup_fmap, Hb, lookup_seq_lt by done.
    done.
  - unfold gather. rewrite <-!list_fmap_compose.
    rewrite (mapM_weights _ (λ r, Tensor [p]
             (take (numel [p])
                (drop (r * numel [p]) (to_bool <$> data (np_weights b))))))
      by done.
    cbn [fmap option_fmap option_map].
    rewrite (cat0_uniform _ n p [1; 28; 28]%nat),
            !(cat0_uniform _ n p []) by done.
    unfold whole_batch. f_equal; [| |f_equal]; f_equal.
    + change (seq 0 n ≫= (λ r,
                chunks (28 * 28 * 1) p
                  (take (numel [p; 28; 28; 1]%nat)
                     (drop (r * numel [p; 28; 28; 1]%nat)
                        (data (np_inputs b))))
                ≫= channel_first (28 * 28) 1)
              = chunks (28 * 28 * 1) (n * p) (data (np_inputs b))
                ≫= channel_first (28 * 28) 1).
      rewrite <-bind_bind_list.
      f_equal. rewrite numel_example. symmetry. apply chunks_slices.
    + change (seq 0 n ≫= (λ r,
                take (numel [p]) (drop (r * numel [p]) (data (np_targets b))))
              = data (np_targets b)).
      rewrite slices_join, numel_1d. apply take_ge.
      unfold wf in Hwt. rewrite Hwt, Hst, numel_2d. done.
    + change (seq 0 n ≫= (λ r,
                take (numel [p])
                  (drop (r * numel [p]) (to_bool <$> data (np_weights b))))
              = to_bool <$> data (np_weights b)).
      rewrite slices_join, numel_1d. apply take_ge.
      unfold wf in Hww. rewrite length_fmap, Hww, Hsw, numel_2d. done.
Qed.

Lemma queue_modes_agree_witness :
  ∃ bB bs,
    (_build_input_queue (mode_B 2) 2 [example_np_batch]).1 !! 0%nat = Some bB ∧
    length bs = 2%nat ∧
    (_build_input_queue (mode_A 2 0) 2 [example_np_batch]).1 !! 0%nat
      = bs !! 0%nat ∧
    (_build_input_queue (mode_A 2 1) 2 [example_np_batch]).1 !! 0%nat
      = bs !! 1%nat ∧
    gather bs = bB.
Proof.
  destruct (queue_modes_agree 2 1 [example_np_batch]) as (_ & _ & Hturn).
  - lia.
  - repeat constructor.
  - cbv zeta in Hturn.
    destruct (Hturn 0%nat (whole_batch 2 1 example_np_batch))
      as (bs & Hlen & Hranks & Hgather).
    + reflexivity.
    + exists (whole_batch 2 1 example_np_batch), bs.
      split; [reflexivity|]. split; [exact Hlen|].
      split; [apply Hranks; lia|]. split; [apply Hranks; lia | exact Hgather].
Defined.

(** ** Shapes of the yielded batches *)






(** ** The theorems at concrete inputs *)

Lemma loss_fn_masked_mean_witness :
  let logits := [[1; 2]; [2; 1]] in
  let mask := Some [1; 0] in
  let ce := cross_entropy (TorchOps := rational_ops) logits [0; 0]%Z 0 in
  loss_fn (ops := rational_ops) [0; 0]%Z logits mask 0
  = Ok (mean_loss_spec ce mask, masked_losses_spec ce mask).
Proof.
  cbv zeta.
  destruct (loss_fn_masked_mean (ops := rational_ops)
              [0; 0]%Z [[1; 2]; [2; 1]] (Some [1; 0]) 0)
    as (Hrun & Hvec & Hmean).
  - intros m [= <-]. reflexivity.
  - cbv zeta in Hvec, Hmean. rewrite <-Hmean, <-Hvec. exact Hrun.
Defined.

Lemma loss_fn_all_zeros_mask_witness :
  loss_fn (ops := rational_ops) [0; 0]%Z [[1; 2]; [2; 1]] (Some [0; 0]) 0
  = Ok (NaN, [0; 0]).
Proof.
  refine (proj2 (loss_fn_all_zeros_mask (ops := rational_ops)
                   [0; 0]%Z [[1; 2]; [2; 1]] [0; 0] 0 _ _)).
  - reflexivity.
  - repeat constructor.
Defined.

Lemma loss_fn_returns_masked_vector_witness :
  zip_with Qcmult
    (cross_entropy (TorchOps := rational_ops) [[1; 2]; [2; 1]] [0; 0]%Z 0)
    [1; 0] !! 1%nat = Some 0.
Proof.
  destruct (loss_fn_returns_masked_vector (ops := rational_ops)
              [0; 0]%Z [[1; 2]; [2; 1]] [1; 0] 0 eq_refl)
    as (mean & _ & _ & Hzero).
  exact (Hzero 1%nat eq_refl).
Defined.

Lemma eval_model_metrics_witness :
  let batch :=
    mkBatch (inputs example_batch) (Tensor [2]%nat [0; 1]%Z)
            (Some (Tensor [2]%nat [true; false])) in
  ∃ metrics,
    _eval_model (ops := rational_ops) example_model batch
      = (eval example_model, Ok metrics) ∧
    accuracy metrics = 1 ∧
    loss metrics = Q2Qc (9 # 10).
Proof.
  cbv zeta.
  edestruct (eval_model_metrics (ops := rational_ops) example_model
               (mkBatch (inputs example_batch) (Tensor [2]%nat [0; 1]%Z)
                  (Some (Tensor [2]%nat [true; false]))))
    as (predicted & Hmax & _ & Hrun & _).
  - vm_compute. reflexivity.
  - repeat constructor; discriminate.
  - reflexivity.
  - intros w [= <-]. reflexivity.
  - vm_compute in Hmax. injection Hmax as <-.
    eexists. split; [exact Hrun|].
    split; apply Qc_is_canon; vm_compute; reflexivity.
Defined.

(** * Further properties *)

(** ** The forward pass *)

Section forward_shape.
Context {ops : TorchOps}.

Lemma length_chunks {A} (k n : nat) (l : list A) : length (chunks k n l) = n.
Proof. unfold chunks. by rewrite length_fmap, length_seq. Qed.

Lemma Forall_length_chunks {A} (k n : nat) (l : list A) :
  length l = (n * k)%nat → Forall (λ row, length row = k) (chunks k n l).
Proof.
  intros Hl. unfold chunks. apply Forall_fmap, Forall_forall.
  intros i Hi%elem_of_seq. cbn. apply length_chunk. nia.
Qed.

Lemma apply_linear_ok (W : list (list Qc)) (bias : option (list Qc))
    (xs : list (list Qc)) (d : nat) :
  Forall (λ w, length w = d) W → Forall (λ x, length x = d) xs →
  apply_module (Linear W bias) xs = Ok (linear_row W bias <$> xs).
Proof.
  intros HW Hxs. cbn. rewrite decide_True; [done|].
  eapply Forall_impl; [exact Hxs|]. intros x Hx. cbn.
  eapply Forall_impl; [exact HW|]. intros w Hw. cbn. congruence.
Qed.

Lemma length_linear_row (W : list (list Qc)) (b x : list Qc) :
  length b = length W → length (linear_row W (Some b) x) = length W.
Proof. intros Hb. cbn. rewrite length_zip_with. lia. Qed.

(** The scores of a module of [d] inputs, [h] hidden units and [c] classes
    (784, 128 and 10 in the source) for a batch of [b > 0] examples of [d]
    values each: one row of [c] scores per example. *)
Theorem forward_output_shape (w1 : list (list Qc)) (b1 : list Qc)
    (w2 : list (list Qc)) (b2 : list Qc) (d h c : nat)
    (x : tensor Qc) (b : nat) (rest : list nat) :
  Forall (λ w, length w = d) w1 → length w1 = h → length b1 = h →
  Forall (λ w, length w = h) w2 → length w2 = c → length b2 = c →
  shape x = b :: rest → (0 < b)%nat → numel rest = d → wf x →
  ∃ logits,
    forward (Model_init w1 b1 w2 b2) x = Ok logits ∧
    length logits = b ∧
    Forall (λ row, length row = c) logits.
Proof.
  intros Hw1 Hh Hb1 Hw2 Hc Hb2 Hs Hb Hd Hwf.
  unfold wf in Hwf. rewrite Hs in Hwf. cbn [numel foldr] in Hwf.
  fold (numel rest) in Hwf. rewrite Hd in Hwf.
  set (rows := chunks d b (data x)).
  assert (Hrows : Forall (λ row, length row = d) rows)
    by by apply Forall_length_chunks.
  set (hidden := linear_row w1 (Some b1) <$> rows).
  assert (Hhidden : Forall (λ row, length row = h) hidden).
  { apply Forall_fmap, Forall_forall. intros row _. cbn -[linear_row].
    rewrite length_linear_row; congruence. }
  set (act := (λ row : list Qc, sigmoid <$> row) <$> hidden).
  assert (Hact : Forall (λ row, length row = h) act).
  { apply Forall_fmap. eapply Forall_impl; [exact Hhidden|].
    intros row Hrow. cbn. by rewrite length_fmap. }
  exists (linear_row w2 (Some b2) <$> act). split; [|split].
  - unfold forward, view_rows. rewrite Hs, decide_False by lia.
    rewrite Hd. fold rows. cbn -[apply_module].
    rewrite (apply_linear_ok w1 _ rows d) by done.
    cbn -[apply_module linear_row]. fold hidden.
    change (apply_module Sigmoid hidden) with (Ok act).
    cbn -[apply_module linear_row].
    rewrite (apply_linear_ok w2 _ act h) by done. done.
  - subst act hidden rows. by rewrite !length_fmap, length_chunks.
  - apply Forall_fmap, Forall_forall. intros row _. cbn -[linear_row].
    rewrite length_linear_row; congruence.
Qed.

End forward_shape.

Section forward_errors.
Context {ops : TorchOps}.

(** What [forward] refuses: a tensor without axes has no [size()[0]]
    (IndexError); a batch of no examples leaves the size of the [-1] axis
    undetermined (RuntimeError); and examples whose number of values is not
    the number of inputs of the first layer do not fit it (RuntimeError). *)
Theorem forward_rejects (w1 : list (list Qc)) (b1 : list Qc)
    (w2 : list (list Qc)) (b2 : list Qc) (x : tensor Qc) :
  let m := Model_init w1 b1 w2 b2 in
  (shape x = [] → forward m x = Err IndexError) ∧
  (∀ rest, shape x = 0%nat :: rest → forward m x = Err RuntimeError) ∧
  (∀ b rest d,
     shape x = b :: rest → (0 < b)%nat → wf x →
     w1 ≠ [] → Forall (λ w, length w = d) w1 → numel rest ≠ d →
     forward m x = Err RuntimeError).
Proof.
  intros m. split_and!.
  - intros Hs. unfold forward, view_rows. by rewrite Hs.
  - intros rest Hs. unfold forward, view_rows. by rewrite Hs.
  - intros b rest d Hs Hb Hwf Hw1 Hd Hne.
    unfold wf in Hwf. rewrite Hs in Hwf. cbn [numel foldr] in Hwf.
    fold (numel rest) in Hwf.
    unfold forward, view_rows. rewrite Hs, decide_False by lia.
    cbn -[chunks]. rewrite decide_False; [done|].
    intros Hall.
    destruct b as [|b]; [lia|]. destruct w1 as [|w w1]; [done|].
    pose proof (Forall_length_chunks (numel rest) (S b) (data x) Hwf) as Hrows.
    unfold chunks in Hall, Hrows. cbn [seq fmap list_fmap] in Hall, Hrows.
    apply Forall_cons_1 in Hall as [Hall _].
    apply Forall_cons_1 in Hall as [Hall _].
    apply Forall_cons_1 in Hrows as [Hrows _].
    apply Forall_cons_1 in Hd as [Hd _].
    congruence.
Qed.

Lemma net_model_after params calls :
  net (model_after params calls) = net params.
Proof.
  unfold model_after. revert params.
  induction calls as [|[b mode] calls IH]; intros params; [done|].
  cbn [foldl]. rewrite IH. unfold model_fn. cbn. by case_decide.
Qed.

Lemma forward_net m m' x : net m = net m' → forward m x = forward m' x.
Proof. unfold forward. by intros ->. Qed.

(** [model_fn] never touches the parameters: after any series of calls, in
    whatever modes, the sub-modules are those it started with, and a further
    call in either mode gives the scores that the forward pass of the
    original module gives for the batch (or fails as it does). *)
Theorem model_fn_keeps_parameters params calls batch mode g :
  let m := model_after params calls in
  net (model_fn m batch mode g).1 = net params ∧
  logits_batch <$> (model_fn m batch mode g).2
    = forward params (inputs batch).
Proof.
  intros m. pose proof (net_model_after params calls) as Hnet. fold m in Hnet.
  split.
  - unfold model_fn. cbn. by case_decide.
  - unfold model_fn. cbn.
    rewrite (forward_net _ params) by (by case_decide).
    by destruct (forward params (inputs batch)).
Qed.

End forward_errors.

Lemma forward_rejects_witness :
  forward (ops := rational_ops) example_model
    (Tensor [2; 3]%nat [1; 2; 0; 2; 1; 0]) = Err RuntimeError.
Proof.
  refine (proj2 (proj2 (forward_rejects (ops := rational_ops)
    [[1; 0]; [0; 1]] [0; 0] [[1; 0]; [0; 1]] [0; 0]
    (Tensor [2; 3]%nat [1; 2; 0; 2; 1; 0]))) 2%nat [3%nat] 2%nat _ _ _ _ _ _).
  - reflexivity.
  - lia.
  - reflexivity.
  - discriminate.
  - repeat constructor.
  - cbn. lia.
Defined.

Lemma forward_output_shape_witness :
  ∃ logits,
    forward (ops := rational_ops) example_model (inputs example_batch)
      = Ok logits ∧
    length logits = 2%nat ∧
    Forall (λ row, length row = 2%nat) logits.
Proof.
  refine (forward_output_shape (ops := rational_ops)
    [[1; 0]; [0; 1]] [0; 0] [[1; 0]; [0; 1]] [0; 0] 2 2 2
    (inputs example_batch) 2 [1; 1; 2]%nat _ _ _ _ _ _ _ _ _ _);
    try reflexivity; try (repeat constructor); lia.
Defined.


(** ** More on [loss_fn] *)

Section loss_edges.
Context {ops : TorchOps}.

(** A mask that has neither one value per example nor a single value cannot
    be multiplied into the per-example losses: [loss_fn] raises. *)
Theorem loss_fn_mask_shape_mismatch (label_batch : list Z)
    (logits : list (list Qc)) (mask : list Qc) (label_smoothing : Qc) :
  length mask ≠ length logits → length mask ≠ 1%nat →
  loss_fn label_batch logits (Some mask) label_smoothing = Err RuntimeError.
Proof.
  intros Hlen H1. unfold loss_fn, imul.
  rewrite cross_entropy_length, decide_False by done.
  by destruct mask as [|m [|m' mask]].
Qed.

Lemma tsum_scale (l : list Qc) (m : Qc) :
  tsum ((λ x, x * m) <$> l) = tsum l * m.
Proof.
  induction l as [|x l IH]; [by rewrite Qcmult_0_l|].
  cbn [fmap list_fmap]. rewrite !tsum_cons. fold (fmap (λ x, x * m) l).
  rewrite IH. ring.
Qed.

(** A mask of a single value [m ≠ 0] is broadcast over the batch, while its
    sum stays [m]: the scalar that [loss_fn] returns is then the sum of the
    per-example losses, not their mean, and the vector is the losses times
    [m]. *)
Theorem loss_fn_one_element_mask (label_batch : list Z)
    (logits : list (list Qc)) (m : Qc) (label_smoothing : Qc) :
  m ≠ 0 →
  let ce := cross_entropy logits label_batch label_smoothing in
  loss_fn label_batch logits (Some [m]) label_smoothing
  = Ok (Finite (tsum ce), (λ x, x * m) <$> ce).
Proof.
  intros Hm ce.
  assert (Himul : imul ce [m] = Ok ((λ x, x * m) <$> ce)).
  { unfold imul. case_decide as Hl; [|done].
    destruct ce as [|c [|c' l]]; try done. }
  unfold loss_fn. fold ce. rewrite Himul. cbn -[tsum].
  rewrite tsum_scale. unfold true_divide.
  replace (tsum [m]) with m by (cbn; ring).
  rewrite decide_False by done. by rewrite Qcdiv_mult_l.
Qed.

Lemma of_nat_S (n : nat) : of_nat (S n) = 1 + of_nat n.
Proof.
  unfold of_nat.
  by rewrite Nat2Z.inj_succ, <-Z.add_1_l, Z2Qc_inj_add, Z2Qc_inj_1.
Qed.

Lemma of_nat_0 : of_nat 0 = 0.
Proof. apply Z2Qc_inj_0. Qed.

Lemma tsum_bool_mask (ce : list Qc) (bs : list bool) :
  tsum (zip_with Qcmult ce (of_bool <$> bs))
  = tsum ((filter (λ xb : Qc * bool, xb.2 = true) (zip ce bs)).*1).
Proof.
  revert bs. induction ce as [|x ce IH]; intros [|b bs]; try done.
  cbn [fmap list_fmap zip_with zip]. fold (fmap of_bool bs).
  rewrite tsum_cons, IH.
  rewrite filter_cons. fold (zip ce bs). destruct b; cbn [snd of_bool].
  - rewrite decide_True by done. cbn [fmap list_fmap fst].
    rewrite tsum_cons. ring.
  - rewrite decide_False by done. ring.
Qed.

Lemma tsum_of_bool (bs : list bool) :
  tsum (of_bool <$> bs) = of_nat (length (filter (λ b, b = true) bs)).
Proof.
  induction bs as [|b bs IH]; [symmetry; exact of_nat_0|].
  cbn [fmap list_fmap]. fold (fmap of_bool bs).
  rewrite tsum_cons, IH, filter_cons. destruct b; cbn [of_bool].
  - rewrite decide_True by done. cbn [length]. by rewrite of_nat_S.
  - rewrite decide_False by done. ring.
Qed.

(** With a mask of truth values, one per example, the scalar that [loss_fn]
    returns is the sum of the losses of the examples marked true divided by
    their number: the other examples count neither above nor below the
    line. *)
Theorem loss_fn_boolean_mask (label_batch : list Z) (logits : list (list Qc))
    (valid : list bool) (label_smoothing : Qc) :
  length valid = length logits →
  let ce := cross_entropy logits label_batch label_smoothing in
  fst <$> loss_fn label_batch logits (Some (of_bool <$> valid)) label_smoothing
  = Ok (true_divide
          (tsum ((filter (λ xb : Qc * bool, xb.2 = true) (zip ce valid)).*1))
          (of_nat (length (filter (λ b, b = true) valid)))).
Proof.
  intros Hlen ce. unfold loss_fn. fold ce.
  rewrite imul_same_length
    by (subst ce; by rewrite length_fmap, cross_entropy_length).
  cbn -[tsum]. by rewrite tsum_bool_mask, tsum_of_bool.
Qed.

(** A batch of no examples: the summed loss and the number of valid examples
    are both zero, so the scalar is not-a-number, with no mask as with the
    empty mask; nothing is raised. *)
Theorem loss_fn_empty_batch (label_batch : list Z) (label_smoothing : Qc) :
  loss_fn label_batch [] None label_smoothing = Ok (NaN, []) ∧
  loss_fn label_batch [] (Some []) label_smoothing = Ok (NaN, []).
Proof.
  assert (Hce : cross_entropy [] label_batch label_smoothing = []).
  { apply nil_length_inv. by rewrite cross_entropy_length. }
  unfold loss_fn. rewrite Hce. cbn -[true_divide of_nat].
  rewrite of_nat_0. unfold true_divide. by rewrite !decide_True.
Qed.

End loss_edges.

(** ** More on [_eval_model] *)

Section eval_more.
Context {ops : TorchOps}.

Lemma eval_model_forward params batch :
  _eval_model params batch
  = (eval params,
     logits ← forward (eval params) (inputs batch);
     let weights := eval_weights batch (length logits) in
     predicted ← max_dim1 logits;
     correct ← broadcast_with (λ p t, bool_decide (Z.of_nat p = t))
                 predicted (data (targets batch));
     weighted ← broadcast_with (λ c w, of_bool c * w) correct weights;
     '(_, per_example_losses) ←
        loss_fn (data (targets batch)) logits (Some weights) 0;
     Ok (mkMetrics (tsum weighted) (tsum per_example_losses))).
Proof.
  unfold _eval_model, model_fn. rewrite decide_True by done.
  by destruct (forward (eval params) (inputs batch)).
Qed.

Lemma length_eval_weights batch n :
  (∀ w, weights batch = Some w → length (data w) = n) →
  length (eval_weights batch n) = n.
Proof.
  intros Hw. unfold eval_weights. destruct (weights batch) as [w|].
  - rewrite length_fmap. by apply Hw.
  - apply length_replicate.
Qed.

Lemma eval_model_run params batch logits predicted :
  forward (eval params) (inputs batch) = Ok logits →
  max_dim1 logits = Ok predicted →
  length predicted = length logits →
  length (data (targets batch)) = length logits →
  (∀ w, weights batch = Some w → length (data w) = length logits) →
  let w := eval_weights batch (length logits) in
  _eval_model params batch
  = (eval params,
     Ok (mkMetrics
           (tsum (zip_with (λ c w, of_bool c * w)
                    (zip_with (λ p t, bool_decide (Z.of_nat p = t))
                       predicted (data (targets batch)))
                    w))
           (tsum (zip_with Qcmult
                    (cross_entropy logits (data (targets batch)) 0) w)))).
Proof.
  intros Hfwd Hmax Hlp Htargets Hweights w.
  pose proof (length_eval_weights batch _ Hweights) as Hlw. fold w in Hlw.
  rewrite eval_model_forward, Hfwd. f_equal.
  cbn -[max_dim1 broadcast_with loss_fn tsum eval_weights].
  rewrite Hmax. fold w.
  cbn -[broadcast_with loss_fn tsum].
  rewrite broadcast_with_same_length by congruence.
  cbn -[broadcast_with loss_fn tsum].
  rewrite broadcast_with_same_length by (rewrite length_zip_with; lia).
  cbn -[loss_fn tsum]. unfold loss_fn.
  rewrite imul_same_length by (by rewrite cross_entropy_length).
  done.
Qed.

Lemma eval_weights_bool batch n :
  eval_weights batch n
  = of_bool <$> from_option data (replicate n true) (weights batch).
Proof.
  unfold eval_weights, ones. destruct (weights batch); [done|].
  cbn [from_option]. by rewrite fmap_replicate.
Qed.

Lemma tsum_correct_and_valid (correct valid : list bool) :
  tsum (zip_with (λ c w, of_bool c * w) correct (of_bool <$> valid))
  = of_nat (length (filter (λ cv : bool * bool, cv.1 = true ∧ cv.2 = true)
                      (zip correct valid))).
Proof.
  revert valid.
  induction correct as [|c correct IH]; intros [|v valid];
    try (symmetry; exact of_nat_0).
  cbn [fmap list_fmap zip_with zip]. fold (fmap of_bool valid).
  rewrite tsum_cons, IH, filter_cons. fold (zip correct valid).
  destruct c, v; cbn [fst snd of_bool].
  - rewrite decide_True by done. cbn [length]. rewrite of_nat_S. ring.
  - rewrite decide_False by (intros [_ ?]; done). ring.
  - rewrite decide_False by (intros [? _]; done). ring.
  - rewrite decide_False by (intros [? _]; done). ring.
Qed.

Lemma count_correct_and_valid (correct valid : list bool) :
  (length (filter (λ cv : bool * bool, cv.1 = true ∧ cv.2 = true)
             (zip correct valid))
   ≤ length (filter (λ b, b = true) valid))%nat.
Proof.
  revert valid. induction correct as [|c correct IH]; intros [|v valid];
    cbn [zip zip_with]; try (rewrite filter_nil; cbn; lia).
  fold (zip correct valid). rewrite !filter_cons. specialize (IH valid).
  destruct c, v; cbn [fst snd];
    repeat case_decide; cbn [length]; try lia; naive_solver.
Qed.

Lemma count_correct_zip (ps : list nat) (ts : list Z) (vs : list bool) :
  length (filter (λ cv : bool * bool, cv.1 = true ∧ cv.2 = true)
            (zip (zip_with (λ p t, bool_decide (Z.of_nat p = t)) ps ts) vs))
  = length (filter (λ ptv : nat * Z * bool,
                      Z.of_nat ptv.1.1 = ptv.1.2 ∧ ptv.2 = true)
              (zip (zip ps ts) vs)).
Proof.
  revert ts vs.
  induction ps as [|p ps IH]; intros [|t ts] [|v vs]; try done.
  cbn [zip zip_with]. fold (zip (zip ps ts) vs).
  fold (zip (zip_with (λ p t, bool_decide (Z.of_nat p = t)) ps ts) vs).
  rewrite !filter_cons. cbn [fst snd]. specialize (IH ts vs).
  destruct (decide (Z.of_nat p = t)) as [Hpt|Hpt].
  - rewrite (bool_decide_eq_true_2 _ Hpt).
    destruct v; repeat case_decide; cbn [length]; try lia; naive_solver.
  - rewrite (bool_decide_eq_false_2 _ Hpt).
    repeat case_decide; cbn [length]; try lia; naive_solver.
Qed.

(** When [_eval_model] succeeds, its accuracy is the number of examples that
    are valid (marked true by the weights of the batch, or all of them when
    the batch has no weights) and whose predicted class, the index of the
    first greatest score, is the target; so it is at most the number of valid
    examples, itself at most the batch size. *)
Theorem eval_accuracy_is_count (params : _Model) (batch : Batch)
    (logits : list (list Qc)) :
  forward (eval params) (inputs batch) = Ok logits →
  Forall (λ row, row ≠ []) logits →
  length (data (targets batch)) = length logits →
  (∀ w, weights batch = Some w → length (data w) = length logits) →
  let valid :=
    from_option data (replicate (length logits) true) (weights batch) in
  ∃ metrics predicted,
    max_dim1 logits = Ok predicted ∧
    Forall2 is_argmax logits predicted ∧
    (_eval_model params batch).2 = Ok metrics ∧
    let hits :=
      filter (λ ptv : nat * Z * bool,
                Z.of_nat ptv.1.1 = ptv.1.2 ∧ ptv.2 = true)
        (zip (zip predicted (data (targets batch))) valid) in
    accuracy metrics = Qc_of_Z (Z.of_nat (length hits)) ∧
    (length hits ≤ length (filter (λ b, b = true) valid) ≤ length logits)%nat.
Proof.
  intros Hfwd Hrows Htargets Hweights valid.
  destruct (max_dim1_spec logits Hrows) as [predicted [Hmax Hpred]].
  assert (Hlp : length predicted = length logits)
    by (symmetry; by eapply Forall2_length).
  rewrite (eval_model_run params batch logits predicted) by done.
  rewrite eval_weights_bool. fold valid.
  eexists _, predicted. split; [done|]. split; [done|].
  split; [reflexivity|]. cbn [accuracy]. cbv zeta.
  rewrite <-count_correct_zip. split; [apply tsum_correct_and_valid|]. split.
  - apply count_correct_and_valid.
  - etrans; [apply length_filter|]. subst valid.
    destruct (weights batch) as [w|] eqn:Hw; cbn.
    + by rewrite (Hweights w).
    + by rewrite length_replicate.
Qed.

(** The loss of [_eval_model] is the sum that [loss_fn] divides: the scalar
    of [loss_fn] for the same targets, scores and weights is that loss over
    the number of valid examples. *)
Theorem eval_loss_is_summed_loss (params : _Model) (batch : Batch)
    (logits : list (list Qc)) :
  forward (eval params) (inputs batch) = Ok logits →
  Forall (λ row, row ≠ []) logits →
  length (data (targets batch)) = length logits →
  (∀ w, weights batch = Some w → length (data w) = length logits) →
  let valid :=
    from_option data (replicate (length logits) true) (weights batch) in
  ∃ metrics,
    (_eval_model params batch).2 = Ok metrics ∧
    fst <$> loss_fn (data (targets batch)) logits
              (Some (eval_weights batch (length logits))) 0
    = Ok (true_divide (loss metrics)
            (of_nat (length (filter (λ b, b = true) valid)))).
Proof.
  intros Hfwd Hrows Htargets Hweights valid.
  destruct (max_dim1_spec logits Hrows) as [predicted [Hmax Hpred]].
  assert (Hlp : length predicted = length logits)
    by (symmetry; by eapply Forall2_length).
  pose proof (length_eval_weights batch _ Hweights) as Hlw.
  rewrite (eval_model_run params batch logits predicted) by done.
  eexists. split; [reflexivity|]. cbn [loss].
  unfold loss_fn.
  rewrite imul_same_length by (by rewrite cross_entropy_length).
  cbn -[tsum]. f_equal. f_equal.
  rewrite eval_weights_bool. apply tsum_of_bool.
Qed.

End eval_more.

Section eval_edges.
Context {ops : TorchOps}.

Lemma tsum_zip_with_zeros {A} (f : A → Qc → Qc) (xs : list A) (ws : list Qc) :
  (∀ a, f a 0 = 0) → Forall (λ w, w = 0) ws → tsum (zip_with f xs ws) = 0.
Proof.
  intros Hf Hws. revert xs.
  induction Hws as [|w ws -> _ IH]; intros [|x xs]; cbn [zip_with]; try done.
  by rewrite tsum_cons, Hf, IH.
Qed.

(** A batch whose weights are all false: [_eval_model] succeeds with an
    accuracy of zero and a loss of zero, whatever the scores are. *)
Theorem eval_all_masked (params : _Model) (batch : Batch)
    (logits : list (list Qc)) (w : tensor bool) :
  forward (eval params) (inputs batch) = Ok logits →
  Forall (λ row, row ≠ []) logits →
  length (data (targets batch)) = length logits →
  weights batch = Some w →
  length (data w) = length logits →
  Forall (λ b, b = false) (data w) →
  (_eval_model params batch).2 = Ok (mkMetrics 0 0).
Proof.
  intros Hfwd Hrows Htargets Hw Hlw Hfalse.
  destruct (max_dim1_spec logits Hrows) as [predicted [Hmax Hpred]].
  assert (Hlp : length predicted = length logits)
    by (symmetry; by eapply Forall2_length).
  rewrite (eval_model_run params batch logits predicted); try done.
  2: { intros w' Hw'. congruence. }
  assert (Hzero : Forall (λ q, q = 0) (eval_weights batch (length logits))).
  { unfold eval_weights. rewrite Hw. apply Forall_fmap.
    eapply Forall_impl; [exact Hfalse|]. by intros b ->. }
  cbn [snd]. f_equal. f_equal.
  - apply tsum_zip_with_zeros; [|done]. intros a. apply Qcmult_0_r.
  - apply tsum_zip_with_zeros; [|done]. intros a. apply Qcmult_0_r.
Qed.




End eval_edges.

(** ** More on the permutation of the axes *)

Lemma lookup_bind_uniform {X Y} (f : X → list Y) (xs : list X)
    (k i j : nat) (x : X) :
  Forall (λ x, length (f x) = k) xs → xs !! i = Some x → (j < k)%nat →
  (xs ≫= f) !! (i * k + j)%nat = f x !! j.
Proof.
  intros Hall. revert i.
  induction Hall as [|y xs Hy _ IH]; intros [|i] Hi Hj; try done.
  - injection Hi as ->. rewrite bind_cons, lookup_app_l by lia. done.
  - rewrite bind_cons, lookup_app_r by (cbn; lia).
    rewrite <-(IH i Hi Hj). f_equal. cbn. lia.
Qed.

Lemma lookup_omap_total {X Y} (f : X → option Y) (xs : list X) (j : nat) :
  Forall (λ x, is_Some (f x)) xs → omap f xs !! j = xs !! j ≫= f.
Proof.
  intros Hall. revert j.
  induction Hall as [|x xs [y Hy] _ IH]; intros j; [done|].
  cbn. rewrite Hy. destruct j as [|j]; cbn; [done | apply IH].
Qed.

Lemma lookup_channel_first {A} (hw c ci q : nat) (ex : list A) :
  length ex = (hw * c)%nat → (ci < c)%nat → (q < hw)%nat →
  channel_first hw c ex !! (ci * hw + q)%nat = ex !! (q * c + ci)%nat.
Proof.
  intros Hex Hci Hq. unfold channel_first.
  rewrite (lookup_bind_uniform _ _ hw ci q ci).
  - rewrite lookup_omap_total, lookup_seq_lt by
      (try done; apply Forall_forall; intros q' Hq'%elem_of_seq;
       apply lookup_lt_is_Some; nia).
    done.
  - apply Forall_forall. intros ci' Hci'%elem_of_seq.
    rewrite length_omap_total, length_seq; [done|].
    apply Forall_forall. intros q' Hq'%elem_of_seq.
    apply lookup_lt_is_Some. nia.
  - by apply lookup_seq_lt.
  - done.
Qed.

(** [t.permute(0, 3, 1, 2)] on a tensor of shape [[B, H, W, C]] gives a
    tensor of shape [[B, C, H, W]] that holds as many elements, and the
    element at [[b, c, h, w]] of the result is the element at [[b, h, w, c]]
    of [t]. *)
Theorem permute_0312_index {A} (t : tensor A) (B H W C : nat) :
  shape t = [B; H; W; C] → wf t →
  ∃ t', permute_0312 t = Ok t' ∧ shape t' = [B; C; H; W] ∧ wf t' ∧
        ∀ b c h w, (b < B)%nat → (c < C)%nat → (h < H)%nat → (w < W)%nat →
          data t' !! (((b * C + c) * H + h) * W + w)%nat
          = data t !! (((b * H + h) * W + w) * C + c)%nat.
Proof.
  intros Hs Hwf. unfold wf in Hwf. rewrite Hs in Hwf.
  assert (Hlen : length (data t) = (B * (H * W * C))%nat)
    by (rewrite Hwf; unfold numel; cbn [foldr]; lia).
  unfold permute_0312. rewrite Hs. eexists. split; [reflexivity|].
  cbn [shape data]. split; [done|]. split.
  - unfold wf. cbn [shape data]. rewrite length_permuted by done.
    unfold numel. cbn [foldr]. lia.
  - intros b c h w Hb Hc Hh Hw.
    assert (Hhw : (h * W + w < H * W)%nat) by nia.
    replace (((b * C + c) * H + h) * W + w)%nat
      with (b * (H * W * C) + (c * (H * W) + (h * W + w)))%nat by lia.
    rewrite (lookup_bind_uniform _ _ (H * W * C) b _
               (take (H * W * C) (drop (b * (H * W * C)) (data t)))).
    + rewrite lookup_channel_first; [| |done|done].
      * rewrite lookup_take_lt, lookup_drop by nia. f_equal. lia.
      * apply length_chunk. nia.
    + unfold chunks. apply Forall_fmap, Forall_forall.
      intros i Hi%elem_of_seq. cbn.
      apply length_channel_first, length_chunk. nia.
    + unfold chunks. by rewrite list_lookup_fmap, lookup_seq_lt.
    + nia.
Qed.

Lemma channel_first_single {A} (hw : nat) (ex : list A) :
  length ex = hw → channel_first hw 1 ex = ex.
Proof.
  intros Hex. apply list_eq. intros i.
  destruct (decide (i < hw)%nat) as [Hi|Hi].
  - replace i with (0 * hw + i)%nat at 1 by lia.
    rewrite lookup_channel_first by lia. f_equal. lia.
  - rewrite !lookup_ge_None_2; [done|lia|].
    rewrite length_channel_first by lia. lia.
Qed.

Lemma permute_single_channel {A} (b hw : nat) (l : list A) :
  length l = (b * (hw * 1))%nat →
  chunks (hw * 1) b l ≫= channel_first hw 1 = l.
Proof.
  intros Hl.
  rewrite (Forall_bind_ext _ id).
  - unfold chunks. rewrite list_fmap_bind.
    change (seq 0 b ≫= (λ i, take (hw * 1) (drop (i * (hw * 1)) l)) = l).
    rewrite slices_join. apply take_ge. lia.
  - eapply Forall_impl; [by apply Forall_length_chunks|].
    intros ex Hex. cbn beta in Hex. unfold id.
    apply channel_first_single. lia.
Qed.

(** With a single channel, as the inputs of this workload have,
    [t.permute(0, 3, 1, 2)] moves no value: a well-formed tensor of shape
    [[B, H, W, 1]] becomes the tensor of shape [[B, 1, H, W]] with the same
    elements in the same order. *)
Theorem permute_0312_single_channel {A} (t : tensor A) (B H W : nat) :
  shape t = [B; H; W; 1]%nat → wf t →
  permute_0312 t = Ok (Tensor [B; 1; H; W]%nat (data t)).
Proof.
  intros Hs Hwf. unfold wf in Hwf. rewrite Hs in Hwf.
  assert (Hlen : length (data t) = (B * (H * W * 1))%nat)
    by (rewrite Hwf; unfold numel; cbn [foldr]; lia).
  unfold permute_0312. rewrite Hs. f_equal. f_equal.
  by apply permute_single_channel.
Qed.

(** ** More on the input queue *)

Lemma length_queue_loop (t : topology) (pd : Z) (np_iter : list np_batch) :
  (length (queue_loop t pd np_iter).1 ≤ length np_iter)%nat.
Proof.
  induction np_iter as [|b its IH]; [done|].
  cbn [queue_loop]. destruct (queue_step t pd b); [|cbn; lia].
  destruct (queue_loop t pd its) as [ys e]. cbn in *. lia.
Qed.

(** The queue yields at most one batch for each batch of the iterator, and
    with no device at all ([N_GPUS = 0]) it yields nothing: the division for
    the per-device batch size raises ZeroDivisionError first. *)
Theorem queue_yields_at_most (t : topology) (g : Z) (np_iter : list np_batch) :
  (length (_build_input_queue t g np_iter).1 ≤ length np_iter)%nat ∧
  (N_GPUS t = 0%nat →
   _build_input_queue t g np_iter = ([], ZeroDivisionError)).
Proof.
  unfold _build_input_queue, per_device_batch_size. split.
  - case_decide; [cbn; lia | apply length_queue_loop].
  - intros ->. done.
Qed.

(** ** The further properties at concrete inputs *)

Lemma loss_fn_mask_shape_mismatch_witness :
  loss_fn (ops := rational_ops) [0; 0]%Z [[1; 2]; [2; 1]] (Some [1; 0; 1]) 0
  = Err RuntimeError.
Proof.
  refine (loss_fn_mask_shape_mismatch (ops := rational_ops)
            [0; 0]%Z [[1; 2]; [2; 1]] [1; 0; 1] 0 _ _); cbn; lia.
Defined.

Lemma loss_fn_one_element_mask_witness :
  loss_fn (ops := rational_ops) [0; 0]%Z [[1; 2]; [2; 1]] (Some [1]) 0
  = Ok (Finite (tsum (cross_entropy (TorchOps := rational_ops)
                        [[1; 2]; [2; 1]] [0; 0]%Z 0)),
        (λ x, x * 1) <$> cross_entropy (TorchOps := rational_ops)
                           [[1; 2]; [2; 1]] [0; 0]%Z 0).
Proof.
  refine (loss_fn_one_element_mask (ops := rational_ops)
            [0; 0]%Z [[1; 2]; [2; 1]] 1 0 _).
  intros [=].
Defined.

Lemma loss_fn_boolean_mask_witness :
  fst <$> loss_fn (ops := rational_ops) [0; 0]%Z [[1; 2]; [2; 1]]
            (Some (of_bool <$> [true; false])) 0
  = Ok (true_divide
          (tsum ((filter (λ xb : Qc * bool, xb.2 = true)
                    (zip (cross_entropy (TorchOps := rational_ops)
                            [[1; 2]; [2; 1]] [0; 0]%Z 0)
                         [true; false])).*1))
          (of_nat 1)).
Proof.
  exact (loss_fn_boolean_mask (ops := rational_ops)
           [0; 0]%Z [[1; 2]; [2; 1]] [true; false] 0 eq_refl).
Defined.

Lemma eval_accuracy_is_count_witness :
  let batch :=
    mkBatch (inputs example_batch) (Tensor [2]%nat [0; 1]%Z)
            (Some (Tensor [2]%nat [true; false])) in
  ∃ metrics,
    (_eval_model (ops := rational_ops) example_model batch).2 = Ok metrics ∧
    accuracy metrics = Qc_of_Z 1.
Proof.
  cbv zeta.
  edestruct (eval_accuracy_is_count (ops := rational_ops) example_model
               (mkBatch (inputs example_batch) (Tensor [2]%nat [0; 1]%Z)
                  (Some (Tensor [2]%nat [true; false]))))
    as (metrics & predicted & Hmax & _ & Hrun & Hacc & _).
  - vm_compute. reflexivity.
  - repeat constructor; discriminate.
  - reflexivity.
  - intros w [= <-]. reflexivity.
  - vm_compute in Hmax. injection Hmax as <-.
    exists metrics. split; [exact Hrun | exact Hacc].
Defined.

Lemma eval_loss_is_summed_loss_witness :
  ∃ logits metrics,
    forward (ops := rational_ops) (eval example_model) (inputs example_batch)
      = Ok logits ∧
    (_eval_model (ops := rational_ops) example_model example_batch).2
      = Ok metrics ∧
    fst <$> loss_fn (ops := rational_ops) (data (targets example_batch)) logits
              (Some (eval_weights example_batch (length logits))) 0
    = Ok (true_divide (loss metrics) (of_nat 1)).
Proof.
  eexists.
  edestruct (eval_loss_is_summed_loss (ops := rational_ops)
               example_model example_batch)
    as (metrics & Hrun & Hmean).
  - vm_compute. reflexivity.
  - repeat constructor; discriminate.
  - reflexivity.
  - intros w [= <-]. reflexivity.
  - exists metrics. split; [reflexivity | split; [exact Hrun | exact Hmean]].
Defined.

Lemma eval_all_masked_witness :
  (_eval_model (ops := rational_ops) example_model
     (mkBatch (inputs example_batch) (targets example_batch)
        (Some (Tensor [2]%nat [false; false])))).2
  = Ok (mkMetrics 0 0).
Proof.
  eapply (eval_all_masked (ops := rational_ops)).
  - vm_compute. reflexivity.
  - repeat constructor; discriminate.
  - reflexivity.
  - reflexivity.
  - reflexivity.
  - repeat constructor.
Defined.


Lemma permute_0312_index_witness :
  ∃ t', permute_0312 (Tensor [1; 2; 2; 2]%nat [10; 11; 12; 13; 14; 15; 16; 17]%nat)
          = Ok t' ∧
        data t' !! 1%nat = Some 12%nat.
Proof.
  destruct (permute_0312_index
              (Tensor [1; 2; 2; 2]%nat [10; 11; 12; 13; 14; 15; 16; 17]%nat)
              1 2 2 2 eq_refl eq_refl)
    as (t' & Hrun & _ & _ & Hidx).
  exists t'. split; [exact Hrun|].
  exact (Hidx 0 0 0 1 ltac:(lia) ltac:(lia) ltac:(lia) ltac:(lia))%nat.
Defined.

Lemma permute_0312_single_channel_witness :
  permute_0312 (Tensor [1; 2; 2; 1]%nat [10; 11; 12; 13]%nat)
  = Ok (Tensor [1; 1; 2; 2]%nat [10; 11; 12; 13]%nat).
Proof.
  exact (permute_0312_single_channel
           (Tensor [1; 2; 2; 1]%nat [10; 11; 12; 13]%nat) 1 2 2
           eq_refl eq_refl).
Defined.
